(** * Flow engine of the OOP-Project: a shallow embedding of [code.cpp]

    The development follows the source top-down: exceptions and the
    outcome of a call, [StepAnalytics], the [Flow] class with [addStep] and
    [run], the analytics report, the step classes [TextInputStep],
    [CSVInputStep] and [CalculusStep], and the [System] registry. *)

From Stdlib Require Import ZArith QArith Ascii DecimalString.
From stdpp Require Import gmap strings list sorting.

Open Scope Z_scope.

(** ** Exceptions and outcomes *)

(** The two exception classes of the source, and the library's
    [std::out_of_range]. *)
Inductive exception : Type :=
  | FlowExecutionException (stepName : string)
  | FlowNotFoundException (flowName : string)
  | out_of_range.

(** How a call of the program ends.  [Blocked]: the call waits on [cin]
    and the script of the run has no matching event left.  [Undefined]: the
    call increments an [int] that holds [INT_MAX], or indexes a vector out
    of range; C++ gives such a call no meaning.  [OutOfFuel] is the model's
    own: the unrolling bound of a loop was reached. *)
Inductive outcome (A : Type) : Type :=
  | Returns (a : A)
  | Throws (e : exception)
  | Blocked
  | Undefined
  | OutOfFuel.

Arguments Returns {A} a.
Arguments Throws {A} e.
Arguments Blocked {A}.
Arguments Undefined {A}.
Arguments OutOfFuel {A}.

#[global] Instance outcome_ret : MRet outcome := fun A a => Returns a.

#[global] Instance outcome_bind : MBind outcome := fun A B k o =>
  match o with
  | Returns a => k a
  | Throws e => Throws e
  | Blocked => Blocked
  | Undefined => Undefined
  | OutOfFuel => OutOfFuel
  end.

(** ** Machine integers *)

Definition INT_MAX : Z := 2147483647.
Definition SIZE_MAX : Z := 18446744073709551615.

(** [++x] on an [int]. *)
Definition pre_increment (x : Z) : outcome Z :=
  if x <? INT_MAX then Returns (x + 1) else Undefined.

(** [++i] and [--i] on a [size_t]: arithmetic modulo 2^64. *)
Definition size_t_inc (i : Z) : Z := (i + 1) mod (SIZE_MAX + 1).
Definition size_t_dec (i : Z) : Z := (i - 1) mod (SIZE_MAX + 1).

(** ** StepAnalytics *)

Record StepAnalytics : Type := mkStepAnalytics {
  startedCount : Z;
  completedCount : Z;
  skippedCount : Z;
  errorCount : Z
}.

(** The member initialisers [= 0] of the struct. *)
Definition StepAnalytics_init : StepAnalytics := mkStepAnalytics 0 0 0 0.

Definition inc_started (a : StepAnalytics) : outcome StepAnalytics :=
  x ← pre_increment (startedCount a);
  mret (mkStepAnalytics x (completedCount a) (skippedCount a) (errorCount a)).

Definition inc_completed (a : StepAnalytics) : outcome StepAnalytics :=
  x ← pre_increment (completedCount a);
  mret (mkStepAnalytics (startedCount a) x (skippedCount a) (errorCount a)).

Definition inc_skipped (a : StepAnalytics) : outcome StepAnalytics :=
  x ← pre_increment (skippedCount a);
  mret (mkStepAnalytics (startedCount a) (completedCount a) x (errorCount a)).

Definition inc_error (a : StepAnalytics) : outcome StepAnalytics :=
  x ← pre_increment (errorCount a);
  mret (mkStepAnalytics (startedCount a) (completedCount a) (skippedCount a) x).

(** ** Flow *)

(** A [Step*]: the address of a step object.  The map [analytics] is keyed
    by these addresses, so one address added twice shares one entry. *)
Abbreviation StepPtr := N (only parsing).

Record Flow : Type := mkFlow {
  name : string;
  steps : list StepPtr;
  timestamp : Z;
  analytics : gmap N StepAnalytics;
  flowStartedCount : Z;
  flowCompletedCount : Z;
  totalErrorsAcrossFlows : Z
}.

(** [Flow(const string& n)] at time [now]. *)
Definition Flow_new (n : string) (now : Z) : Flow :=
  mkFlow n [] now ∅ 0 0 0.

Definition getName (f : Flow) : string := name f.

Definition set_analytics (m : gmap N StepAnalytics) (f : Flow) : Flow :=
  mkFlow (name f) (steps f) (timestamp f) m
         (flowStartedCount f) (flowCompletedCount f) (totalErrorsAcrossFlows f).

(** [analytics[p]] read: [map::operator[]] yields a value-initialised entry
    for an absent key. *)
Definition entry (f : Flow) (p : StepPtr) : StepAnalytics :=
  default StepAnalytics_init (analytics f !! p).

(** [++analytics[p].field]. *)
Definition bump (inc : StepAnalytics → outcome StepAnalytics)
    (p : StepPtr) (f : Flow) : outcome Flow :=
  a ← inc (entry f p);
  mret (set_analytics (<[p := a]> (analytics f)) f).

Definition addStep (step : StepPtr) (f : Flow) : Flow :=
  mkFlow (name f) (steps f ++ [step]) (timestamp f)
         (<[step := entry f step]> (analytics f))
         (flowStartedCount f) (flowCompletedCount f) (totalErrorsAcrossFlows f).

(** [steps.size()]. *)
Definition size (f : Flow) : Z := Z.of_nat (length (steps f)).

(** [steps[i]]. *)
Definition step_at (f : Flow) (i : Z) : outcome StepPtr :=
  if (0 <=? i) && (i <? size f) then
    match steps f !! Z.to_nat i with
    | Some p => Returns p
    | None => Undefined
    end
  else Undefined.

(** *** The script of a run

    What the surroundings feed a run, in the order the run asks for it: a
    character typed at a prompt, or the way a call of the virtual
    [execute()] ends. *)
Inductive exec_result : Type :=
  | Completes
  | Raises (stepName : string).   (* throw FlowExecutionException(stepName) *)

Inductive event : Type :=
  | Reply (response : Ascii.ascii)
  | Exec (r : exec_result).

Abbreviation script := (list event) (only parsing).

(** [response == 'y' || response == 'Y']. *)
Definition is_yes (response : Ascii.ascii) : bool :=
  Ascii.eqb response "y"%char || Ascii.eqb response "Y"%char.

Definition askUser (σ : script) : outcome (bool * list event) :=
  match σ with
  | Reply response :: σ' => Returns (is_yes response, σ')
  | _ => Blocked
  end.

(** The three prompts differ in the text they print only. *)
Definition askUserToRunStep (stepIndex : Z) := askUser.
Definition askUserToSkipStep (stepIndex : Z) := askUser.
Definition askUserToCompleteStep (stepIndex : Z) := askUser.

(** [while (!completed) { try { ... } catch (...) { ... } }], entered with
    [completed = false].  Every turn takes the end of one [execute()] call
    from the script, so the loop is structural in it; the prompt
    [askUserToCompleteStep(i)] is written out as the match on [σ1]. *)
Fixpoint retry_loop (σ : script) (f : Flow) (i : Z) : outcome (Flow * list event) :=
  match σ with
  | Exec Completes :: σ1 =>
      match σ1 with
      | Reply response :: σ2 =>
          if is_yes response then
            p ← step_at f i;
            f' ← bump inc_completed p f;
            mret (f', σ2)
          else retry_loop σ2 f i
      | _ => Blocked
      end
  | Exec (Raises _) :: σ1 =>
      p ← step_at f i;
      f' ← bump inc_error p f;
      retry_loop σ1 f' i
  | _ => Blocked
  end.

(** The body of the [for] loop at index [i]; its result carries the value
    of [i] when the body ends, before the [++i] of the loop header. *)
Definition body (σ : script) (f : Flow) (i : Z) : outcome (Flow * Z * list event) :=
  p ← step_at f i;
  f1 ← bump inc_started p f;
  '(run_it, σ1) ← askUserToRunStep i σ;
  if run_it : bool then
    '(f2, σ2) ← retry_loop σ1 f1 i;
    mret (f2, i, σ2)
  else
    '(skip_it, σ2) ← askUserToSkipStep i σ1;
    if skip_it : bool then
      p' ← step_at f1 i;
      f2 ← bump inc_skipped p' f1;
      mret (f2, i, σ2)
    else
      mret (f1, size_t_dec i, σ2).

(** [for (size_t i = ...; i < steps.size(); ++i) body]. *)
Fixpoint for_loop (fuel : nat) (σ : script) (f : Flow) (i : Z)
    : outcome (Flow * list event) :=
  if i <? size f then
    match fuel with
    | O => OutOfFuel
    | S fuel' =>
        '(f', i', σ') ← body σ f i;
        for_loop fuel' σ' f' (size_t_inc i')
    end
  else Returns (f, σ).

Definition inc_flowStarted (f : Flow) : outcome Flow :=
  x ← pre_increment (flowStartedCount f);
  mret (mkFlow (name f) (steps f) (timestamp f) (analytics f)
               x (flowCompletedCount f) (totalErrorsAcrossFlows f)).

Definition inc_flowCompleted (f : Flow) : outcome Flow :=
  x ← pre_increment (flowCompletedCount f);
  mret (mkFlow (name f) (steps f) (timestamp f) (analytics f)
               (flowStartedCount f) x (totalErrorsAcrossFlows f)).

(** [Flow::run].  Every turn of the [for] loop takes at least one event, so
    one more turn than the script has events is bound enough
    (see [for_loop_fuel]). *)
Definition run (σ : script) (f : Flow) : outcome (Flow * list event) :=
  f0 ← inc_flowStarted f;
  '(f1, σ1) ← for_loop (S (length σ)) σ f0 0;
  f2 ← inc_flowCompleted f1;
  mret (f2, σ1).

(** The last line of [printAnalytics]: [None] stands for the text
    ["N/A (No completed flows)"].  The quotient of the two integers is
    taken in the rationals. *)
Definition avgErrorsPerFlow (f : Flow) : option Q :=
  if flowCompletedCount f >? 0 then
    Some (inject_Z (totalErrorsAcrossFlows f) / inject_Z (flowCompletedCount f))%Q
  else None.

(** * The step classes *)

(** ** [std::string] *)

Definition npos : Z := SIZE_MAX.

(** Left-to-right scan that remembers the last position holding [ch]. *)
Fixpoint last_index (ch : Ascii.ascii) (s : string) (pos : nat) (found : option nat)
    : option nat :=
  match s with
  | EmptyString => found
  | String c s' => last_index ch s' (S pos) (if Ascii.eqb c ch then Some pos else found)
  end.

(** [s.find_last_of(ch)], with [npos] for no occurrence. *)
Definition find_last_of (s : string) (ch : Ascii.ascii) : Z :=
  match last_index ch s 0 None with
  | Some pos => Z.of_nat pos
  | None => npos
  end.

Fixpoint string_drop (n : nat) (s : string) : string :=
  match n, s with
  | O, _ => s
  | S n', String _ s' => string_drop n' s'
  | S _, EmptyString => EmptyString
  end.

(** [s.substr(pos)], which throws when [pos > s.size()]. *)
Definition substr (s : string) (pos : Z) : outcome string :=
  if pos <=? Z.of_nat (String.length s) then Returns (string_drop (Z.to_nat pos) s)
  else Throws out_of_range.

(** [path.substr(path.find_last_of(".") + 1) == ext], the test both input
    steps make; the [+ 1] is taken on a [size_t]. *)
Definition extension_is (path ext : string) : outcome bool :=
  tail ← substr path (size_t_inc (find_last_of path "."%char));
  mret (String.eqb tail ext).

(** What a step writes, line by line. *)
Inductive output : Type :=
  | Cout (line : string)
  | Cerr (line : string).

(** The files that can be opened for reading, with their contents. *)
Abbreviation files := (string → option string) (only parsing).

(** The lines that successive calls of [getline] deliver. *)
Fixpoint getlines (content : string) (line : string) : list string :=
  match content with
  | EmptyString => if String.eqb line EmptyString then [] else [line]
  | String c rest =>
      if Ascii.eqb c "010"%char then line :: getlines rest EmptyString
      else getlines rest (line +:+ String c EmptyString)
  end.

(** How a call of [execute()] ends, with what it wrote. *)
Definition executed : Type := list output * outcome unit.

Module TextInputStep.

Record t : Type := mk { description : string; textInput : string }.

Definition execute (fs : files) (self : t) : executed :=
  match extension_is (textInput self) "txt" with
  | Returns true =>
      match fs (textInput self) with
      | Some content =>
          ([Cout ("Text Input (from file): " +:+ content)], Returns ())
      | None =>
          ([Cerr ("Error: Unable to open text file '" +:+ textInput self +:+ "'")],
           Throws (FlowExecutionException "TextInputStep"))
      end
  | Returns false => ([Cout ("Text Input: " +:+ textInput self)], Returns ())
  | Throws e => ([], Throws e)
  | _ => ([], Undefined)
  end.

End TextInputStep.

Module CSVInputStep.

Record t : Type := mk { description : string; csvFilePath : string }.

Definition execute (fs : files) (self : t) : executed :=
  match extension_is (csvFilePath self) "csv" with
  | Returns true =>
      match fs (csvFilePath self) with
      | Some content =>
          ((λ line, Cout ("CSV Input: " +:+ line)) <$> getlines content EmptyString,
           Returns ())
      | None =>
          ([Cerr ("Error: Unable to open CSV file '" +:+ csvFilePath self +:+ "'")],
           Throws (FlowExecutionException "CSVInputStep"))
      end
  | Returns false =>
      ([Cerr "Error: Invalid file type for CSVInputStep"],
       Throws (FlowExecutionException "CSVInputStep"))
  | Throws e => ([], Throws e)
  | _ => ([], Undefined)
  end.

End CSVInputStep.

(** ** [CalculusStep<T>] *)

(** What the template asks of [T]: the arithmetic of the compound
    assignments, the test against zero, [operator<] (through [min] and
    [max]) and printing.  [add], [sub], [mul] and [div] give the
    mathematical result of the operation, and [in_range] tells whether [T]
    holds it: an arithmetic expression whose result is not a value of its
    type has undefined behaviour. *)
Class Numeric (T : Type) : Type := {
  add : T → T → T;
  sub : T → T → T;
  mul : T → T → T;
  div : T → T → T;
  in_range : T → bool;
  is_zero : T → bool;
  less : T → T → bool;
  show : T → string
}.

(** [std::min(a, b)] and [std::max(a, b)]. *)
Definition std_min {T} `{Numeric T} (a b : T) : T := if less b a then b else a.
Definition std_max {T} `{Numeric T} (a b : T) : T := if less a b then b else a.

(** [static_cast<size_t>(i)], the conversion that [i < inputValues.size()]
    applies to the [int] on its left. *)
Definition size_t_of_int (i : Z) : Z := i mod (SIZE_MAX + 1).

Module CalculusStep.
Section CalculusStep.

Context {T : Type} `{Numeric T}.

Record t : Type := mk { steps : Z; inputValues : list T; operation : string }.

(** How the [for] loop is left: through its condition, or through one of
    the [return]s that follow a message on [cerr]. *)
Inductive loop_end : Type :=
  | Finished (result : T)
  | Returned (message : string).

(** The value that a compound assignment [result op= x] leaves in
    [result], given the mathematical result [v] of the operation. *)
Definition assigned (v : T) : outcome T :=
  if in_range v then Returns v else Undefined.

(** The loop from index [i] on.  [i < steps] holds in the body, so [++i]
    stays an [int]. *)
Fixpoint loop (self : t) (fuel : nat) (i : Z) (result : T) : outcome loop_end :=
  if (i <? steps self) && (size_t_of_int i <? Z.of_nat (length (inputValues self))) then
    match fuel with
    | O => OutOfFuel
    | S fuel' =>
        match inputValues self !! Z.to_nat i with
        | None => Undefined
        | Some x =>
            if String.eqb (operation self) "+" then
              result' ← assigned (add result x); loop self fuel' (i + 1) result'
            else if String.eqb (operation self) "-" then
              result' ← assigned (sub result x); loop self fuel' (i + 1) result'
            else if String.eqb (operation self) "*" then
              result' ← assigned (mul result x); loop self fuel' (i + 1) result'
            else if String.eqb (operation self) "/" then
              if negb (is_zero x) then
                result' ← assigned (div result x); loop self fuel' (i + 1) result'
              else Returns (Returned "Error: Division by zero in CalculusStep.")
            else if String.eqb (operation self) "min" then
              loop self fuel' (i + 1) (std_min result x)
            else if String.eqb (operation self) "max" then
              loop self fuel' (i + 1) (std_max result x)
            else Returns (Returned "Error: Unsupported operation in CalculusStep.")
        end
    end
  else Returns (Finished result).

(** The computation of [execute()]: the configuration check, then the
    loop from index 1 with [inputValues[0]] as the first result.  The loop
    makes fewer turns than there are input values. *)
Definition compute (self : t) : outcome loop_end :=
  if (steps self <=? 0) || (Z.of_nat (length (inputValues self)) <? 2) then
    Returns (Returned "Error: Invalid configuration for CalculusStep.")
  else
    match inputValues self !! 0%nat with
    | None => Undefined
    | Some first => loop self (length (inputValues self)) 1 first
    end.

(** [execute()]: every way out of the computation is a plain return; an
    arithmetic result that [T] does not hold leaves the call undefined. *)
Definition execute (self : t) : executed :=
  match compute self with
  | Returns (Finished result) =>
      ([Cout ("Calculus Result: " +:+ show result)], Returns ())
  | Returns (Returned message) => ([Cerr message], Returns ())
  | Throws e => ([], Throws e)
  | Blocked => ([], Blocked)
  | Undefined => ([], Undefined)
  | OutOfFuel => ([], OutOfFuel)
  end.

(** *** The fold of the spec *)

(** The six operations as functions. *)
Definition binop (op : string) : option (T → T → T) :=
  if String.eqb op "+" then Some add
  else if String.eqb op "-" then Some sub
  else if String.eqb op "*" then Some mul
  else if String.eqb op "/" then Some div
  else if String.eqb op "min" then Some std_min
  else if String.eqb op "max" then Some std_max
  else None.

(** The input values that follow the first and take part:
    [min(steps - 1, count - 1)] of them. *)
Definition folded (self : t) : list T :=
  take (Z.to_nat (Z.min (steps self - 1) (Z.of_nat (length (inputValues self)) - 1)))
       (drop 1 (inputValues self)).

(** A division by zero somewhere in the fold. *)
Definition divides_by_zero (self : t) : bool :=
  String.eqb (operation self) "/" && existsb is_zero (folded self).

(** The four operations that compute a new value; [min] and [max] hand
    back one of their arguments. *)
Definition arithmetic (op : string) : bool :=
  String.eqb op "+" || String.eqb op "-" || String.eqb op "*" || String.eqb op "/".

(** Every partial result of the fold of [g] over [l] from [acc] is a value
    of [T]. *)
Fixpoint in_range_fold (g : T → T → T) (acc : T) (l : list T) : bool :=
  match l with
  | [] => true
  | x :: l' => in_range (g acc x) && in_range_fold g (g acc x) l'
  end.

(** The fold is one of arithmetic, and [T] does not hold one of its
    partial results. *)
Definition overflows (self : t) : bool :=
  match binop (operation self), inputValues self with
  | Some g, first :: _ =>
      arithmetic (operation self) && negb (in_range_fold g first (folded self))
  | _, _ => false
  end.

(** The values the loop still folds when it stands at index [i]. *)
Definition fold_from (self : t) (i : Z) : list T :=
  take (Z.to_nat (Z.min (steps self) (Z.of_nat (length (inputValues self))) - i))
       (drop (Z.to_nat i) (inputValues self)).

End CalculusStep.
End CalculusStep.

(** ** [CalculusStep<int>], the instance the program builds *)

Definition INT_MIN : Z := -2147483648.

(** A 32-bit [int] as the integer it stands for.  The operations are those
    of the integers, the quotient truncated towards zero; a sum, difference
    or product outside the range of [int] is an overflow, and so is the
    quotient of [INT_MIN] by [-1]. *)
#[global] Instance int_numeric : Numeric Z := {|
  add a b := a + b;
  sub a b := a - b;
  mul a b := a * b;
  div a b := Z.quot a b;
  in_range a := (INT_MIN <=? a) && (a <=? INT_MAX);
  is_zero a := a =? 0;
  less a b := a <? b;
  show a := DecimalString.NilZero.string_of_int (Z.to_int a)
|}.

(** * The registry *)

Module System.

(** [vector<Flow*> flows], each flow owned by the registry. *)
Definition t : Type := list Flow.

Definition createFlow (name : string) (now : Z) (flows : t) : t :=
  flows ++ [Flow_new name now].

(** [find_if(flows.begin(), flows.end(), pred)] as an index; the length of
    the vector stands for [flows.end()]. *)
Fixpoint find_if (pred : Flow → bool) (flows : list Flow) : nat :=
  match flows with
  | [] => 0
  | flow :: rest => if pred flow then 0 else S (find_if pred rest)
  end.

(** [deleteFlow]: how the call ends, and the registry after it. *)
Definition deleteFlow (flowName : string) (flows : t) : outcome unit * t :=
  let it := find_if (λ flow, String.eqb (getName flow) flowName) flows in
  if (it <? length flows)%nat then (Returns (), delete it flows)
  else (Throws (FlowNotFoundException flowName), flows).

(** The names that [printFlows] lists, in the order of the vector. *)
Definition printFlows (flows : t) : list string := getName <$> flows.

Definition getFlows (flows : t) : list Flow := flows.

End System.

(** * The rest of [Flow]: the analytics report *)

(** [cout << int]. *)
Definition show_int (z : Z) : string :=
  DecimalString.NilZero.string_of_int (Z.to_int z).

(** The order of keys of [std::map<Step*, StepAnalytics>]. *)
Definition key_le (x y : N * StepAnalytics) : Prop := (x.1 ≤ y.1)%N.

#[global] Instance key_le_dec x y : Decision (key_le x y) := N.le_dec x.1 y.1.

(** The entries in the order in which a range-[for] goes over the map: by
    ascending address. *)
Definition in_key_order (m : gmap N StepAnalytics) : list (N * StepAnalytics) :=
  merge_sort key_le (map_to_list m).

Section printAnalytics.

(** How [cout] writes a [Step*] and a [double] is the library's choice. *)
Variable show_address : N → string.
Variable show_double : Q → string.

Definition step_line (row : N * StepAnalytics) : output :=
  Cout ("   Step " +:+ show_address row.1
        +:+ ": Started " +:+ show_int (startedCount row.2)
        +:+ " times, Completed " +:+ show_int (completedCount row.2)
        +:+ " times, Skipped " +:+ show_int (skippedCount row.2)
        +:+ " times, Errors " +:+ show_int (errorCount row.2) +:+ " times.").

(** [Flow::printAnalytics]. *)
Definition printAnalytics (f : Flow) : list output :=
  [Cout ("Flow Analytics for '" +:+ name f +:+ "':");
   Cout ("a. Flow started " +:+ show_int (flowStartedCount f) +:+ " times.");
   Cout ("b. Flow completed " +:+ show_int (flowCompletedCount f) +:+ " times.");
   Cout "c. Step-wise analytics:"]
  ++ (step_line <$> in_key_order (analytics f))
  ++ [match avgErrorsPerFlow f with
      | Some avg =>
          Cout ("e. Average number of errors per flow completed: " +:+ show_double avg)
      | None =>
          Cout "e. Average number of errors per flow completed: N/A (No completed flows)"
      end].

End printAnalytics.

(** * The caller of [run]: case 3 of the menu in [main]

    The name typed is looked up among [getFlows()] with the same [find_if]
    as in [deleteFlow]; the flow found is run in place, through its
    pointer.  An unknown name is reported on [cerr] and nothing is thrown. *)
Definition main_run_flow (σ : list event) (flowToRun : string) (flows : System.t)
    : outcome (System.t * list event) :=
  let it := System.find_if (λ flow, String.eqb (getName flow) flowToRun)
                           (System.getFlows flows) in
  if (it <? length (System.getFlows flows))%nat then
    match flows !! it with
    | Some flowToRunPtr =>
        '(flow', σ') ← run σ flowToRunPtr;
        mret (<[it := flow']> flows, σ')
    | None => Undefined
    end
  else mret (flows, σ).

(** * The other step classes *)

Module TitleStep.

Record t : Type := mk { title : string; subtitle : string }.

Definition execute (self : t) : executed :=
  ([Cout ("Title: " +:+ title self); Cout ("Subtitle: " +:+ subtitle self)], Returns ()).

End TitleStep.

Module TextStep.

Record t : Type := mk { title : string; content : string }.

Definition execute (self : t) : executed :=
  ([Cout ("Title: " +:+ title self); Cout ("Content: " +:+ content self)], Returns ()).

End TextStep.

Module FileInputStep.

Record t : Type := mk { description : string; filePath : string }.

(** The description is written before the file is opened. *)
Definition execute (fs : files) (self : t) : executed :=
  match fs (filePath self) with
  | Some content =>
      (Cout ("Description: " +:+ description self)
         :: (Cout <$> getlines content EmptyString),
       Returns ())
  | None =>
      ([Cout ("Description: " +:+ description self);
        Cerr ("Error: Unable to open file '" +:+ filePath self +:+ "'")],
       Throws (FlowExecutionException "FileInputStep"))
  end.

End FileInputStep.

(** The two classes derived from [FileInputStep] write a heading and call
    [FileInputStep::execute()]. *)
Module TextFileInputStep.

Definition execute (fs : files) (self : FileInputStep.t) : executed :=
  (Cout "Text File Content:" :: (FileInputStep.execute fs self).1,
   (FileInputStep.execute fs self).2).

End TextFileInputStep.

Module CSVFileInputStep.

Definition execute (fs : files) (self : FileInputStep.t) : executed :=
  (Cout "CSV File Content:" :: (FileInputStep.execute fs self).1,
   (FileInputStep.execute fs self).2).

End CSVFileInputStep.

Module NumberInputStep.

Record t (T : Type) : Type := mk { description : string; numberInput : T }.

Arguments mk {T} description numberInput.
Arguments description {T} self : rename.
Arguments numberInput {T} self : rename.

Definition execute {T} `{Numeric T} (self : t T) : executed :=
  ([Cout ("Description: " +:+ description self);
    Cout ("Number Input: " +:+ show (numberInput self))],
   Returns ()).

End NumberInputStep.

Module OutputStep.

Record t : Type := mk { fileType : string; description : string; content : string }.

(** [fileName]: the word read from [cin]; [creatable]: the paths at which
    an [ofstream] opens.  The prompt is not ended by [endl]: it opens the
    line of [cout] that the confirmation completes.  The second component
    is the file written, with its lines. *)
Definition execute (fileName : string) (creatable : string → bool) (self : t)
    : executed * option (string * list string) :=
  let filePath := fileName +:+ "." +:+ fileType self in
  if creatable filePath then
    (([Cout ("Enter the output file name (without extension): "
             +:+ "Output written to file: " +:+ filePath)],
      Returns ()),
     Some (filePath, ["Description: " +:+ description self;
                      "Content: " +:+ content self]))
  else
    (([Cout "Enter the output file name (without extension): ";
       Cerr ("Error: Unable to open output file '" +:+ filePath +:+ "'")],
      Throws (FlowExecutionException "OutputStep")),
     None).

End OutputStep.

(** ** [Step] and the virtual [execute()] *)

(** The objects of the classes derived from [Step].  No member of a step
    changes after its construction, so the step that a [DisplayStep] points
    to is given by its value; [Display_null] is the [DisplayStep] built on a
    null pointer. *)
Inductive Step : Type :=
  | Title (self : TitleStep.t)
  | Text (self : TextStep.t)
  | TextInput (self : TextInputStep.t)
  | CSVInput (self : CSVInputStep.t)
  | FileInput (self : FileInputStep.t)
  | TextFileInput (self : FileInputStep.t)
  | CSVFileInput (self : FileInputStep.t)
  | Display (previousStep : Step)
  | Display_null
  | NumberInput (T : Type) (numeric : Numeric T) (self : NumberInputStep.t T)
  | Calculus (T : Type) (numeric : Numeric T) (self : CalculusStep.t (T := T))
  | Output (self : OutputStep.t)
  | End_step.

(** What a call of [execute()] meets outside the program. *)
Record world : Type := mkWorld {
  readable : string → option string;
  fileName : string;
  creatable : string → bool
}.

(** [dynamic_cast<const FileInputStep*>(step)] is not null. *)
Definition is_FileInputStep (step : Step) : bool :=
  match step with
  | FileInput _ | TextFileInput _ | CSVFileInput _ => true
  | _ => false
  end.

(** [step->execute()].  In [DisplayStep] both branches make the same
    virtual call. *)
Fixpoint execute (w : world) (step : Step) : executed :=
  match step with
  | Title self => TitleStep.execute self
  | Text self => TextStep.execute self
  | TextInput self => TextInputStep.execute (readable w) self
  | CSVInput self => CSVInputStep.execute (readable w) self
  | FileInput self => FileInputStep.execute (readable w) self
  | TextFileInput self => TextFileInputStep.execute (readable w) self
  | CSVFileInput self => CSVFileInputStep.execute (readable w) self
  | Display previousStep =>
      if is_FileInputStep previousStep then execute w previousStep
      else execute w previousStep
  | Display_null => ([], Throws (FlowExecutionException "DisplayStep"))
  | NumberInput T numeric self => NumberInputStep.execute self
  | Calculus T numeric self => CalculusStep.execute self
  | Output self => (OutputStep.execute (fileName w) (creatable w) self).1
  | End_step => ([], Returns ())
  end.

(** * The vocabulary of the properties

    Predicates and relations in which the theorems are stated, and the
    flows, scripts and files of the examples. *)

(** Neither an exception nor the unrolling bound. *)
Definition quiet {A} (o : outcome A) : Prop :=
  match o with
  | Throws _ | OutOfFuel => False
  | _ => True
  end.

(** Pointwise order on the four counters. *)
Definition counters_le (a b : StepAnalytics) : Prop :=
  startedCount a ≤ startedCount b ∧ completedCount a ≤ completedCount b ∧
  skippedCount a ≤ skippedCount b ∧ errorCount a ≤ errorCount b.

(** What the loops of [run] leave alone and what they may only raise. *)
Record evolves (f f' : Flow) : Prop := mkEvolves {
  ev_name : name f' = name f;
  ev_steps : steps f' = steps f;
  ev_timestamp : timestamp f' = timestamp f;
  ev_flowStarted : flowStartedCount f' = flowStartedCount f;
  ev_flowCompleted : flowCompletedCount f' = flowCompletedCount f;
  ev_total : totalErrorsAcrossFlows f' = totalErrorsAcrossFlows f;
  ev_counters : ∀ q, counters_le (entry f q) (entry f' q);
  ev_dom_keep : dom (analytics f) ⊆ dom (analytics f');
  ev_dom_new : ∀ q, q ∈ dom (analytics f') → q ∈ dom (analytics f) ∨ q ∈ steps f
}.

(** The four increments, each described by what it adds to the counters. *)
Inductive increment : (StepAnalytics → outcome StepAnalytics) → Z → Z → Z → Z → Prop :=
  | incr_started : increment inc_started 1 0 0 0
  | incr_completed : increment inc_completed 0 1 0 0
  | incr_skipped : increment inc_skipped 0 0 1 0
  | incr_error : increment inc_error 0 0 0 1.

#[local] Hint Constructors increment : core.

(** [delta f f' p ds dc dk de]: from [f] to [f'] the counters of step [p]
    grew by the four amounts and no other entry changed. *)
Definition delta (f f' : Flow) (p : StepPtr) (ds dc dk de : Z) : Prop :=
  startedCount (entry f' p) = startedCount (entry f p) + ds ∧
  completedCount (entry f' p) = completedCount (entry f p) + dc ∧
  skippedCount (entry f' p) = skippedCount (entry f p) + dk ∧
  errorCount (entry f' p) = errorCount (entry f p) + de ∧
  (∀ q, q ≠ p → entry f' q = entry f q).

(** [completed ≤ started] on every entry. *)
Definition balanced (f : Flow) : Prop :=
  ∀ q, completedCount (entry f q) ≤ startedCount (entry f q).

(** How often the address [p] stands in a sequence of steps. *)
Fixpoint positions (p : StepPtr) (l : list N) : Z :=
  match l with
  | [] => 0
  | q :: l' => (if decide (q = p) then 1 else 0) + positions p l'
  end.

(** The visits of step [p] that have been resolved: completed or skipped. *)
Definition resolved (f : Flow) (p : StepPtr) : Z :=
  completedCount (entry f p) + skippedCount (entry f p).

(** What one whole [run] does to a flow. *)
Record run_effect (f f' : Flow) : Prop := mkRunEffect {
  re_name : name f' = name f;
  re_steps : steps f' = steps f;
  re_timestamp : timestamp f' = timestamp f;
  re_total : totalErrorsAcrossFlows f' = totalErrorsAcrossFlows f;
  re_flowStarted : flowStartedCount f' = flowStartedCount f + 1;
  re_flowCompleted : flowCompletedCount f' = flowCompletedCount f + 1;
  re_counters : ∀ q, counters_le (entry f q) (entry f' q);
  re_dom_keep : dom (analytics f) ⊆ dom (analytics f');
  re_dom_new : ∀ q, q ∈ dom (analytics f') → q ∈ dom (analytics f) ∨ q ∈ steps f;
  re_balanced : balanced f → balanced f';
  re_visits : size f ≤ SIZE_MAX → ∀ p, p ∈ steps f →
              startedCount (entry f p) + 1 ≤ startedCount (entry f' p)
}.

(** A [Flow] is built by its constructor, grown by [addStep] (a vector
    holds fewer than [SIZE_MAX] elements) and changed by [run]; its members
    are private. *)
Inductive reachable : Flow → Prop :=
  | reach_new n now : reachable (Flow_new n now)
  | reach_addStep f step : reachable f → size f < SIZE_MAX → reachable (addStep step f)
  | reach_run f σ f' σ' : reachable f → run σ f = Returns (f', σ') → reachable f'.

(** What holds of every such flow. *)
Record well_formed (f : Flow) : Prop := mkWellFormed {
  wf_size : size f ≤ SIZE_MAX;
  wf_balanced : balanced f;
  wf_tracked : ∀ p, p ∈ steps f → p ∈ dom (analytics f);
  wf_nonneg : ∀ q, counters_le StepAnalytics_init (entry f q)
}.

(** [at_header σ f f1 i σ1]: the run of [f] under [σ] stands at the header
    of its [for] loop with the flow in state [f1], the index at [i] and
    [σ1] of the script still to come. *)
Inductive at_header (σ : list event) (f : Flow) : Flow → Z → list event → Prop :=
  | at_first f0 :
      inc_flowStarted f = Returns f0 → at_header σ f f0 0 σ
  | at_next f1 i σ1 f2 i2 σ2 :
      at_header σ f f1 i σ1 → i < size f1 →
      body σ1 f1 i = Returns (f2, i2, σ2) →
      at_header σ f f2 (size_t_inc i2) σ2.

(** A flow of one step and the scripts of two runs of it, with three
    failures and with one. *)
Definition two_runs_flow : Flow := addStep 1%N (Flow_new "demo" 0).

Definition three_errors : list event :=
  [Reply "y"%char; Exec (Raises "CSVInputStep"); Exec (Raises "CSVInputStep");
   Exec (Raises "CSVInputStep"); Exec Completes; Reply "y"%char].

Definition one_error : list event :=
  [Reply "y"%char; Exec (Raises "CSVInputStep"); Exec Completes; Reply "y"%char].

(** ** The extension of a path, as the spec means it *)

(** The part of [path] after its last dot; a path without a dot has no
    extension. *)
Definition extension (path : string) : option string :=
  match last_index "."%char path 0 None with
  | Some pos => Some (string_drop (S pos) path)
  | None => None
  end.

Definition has_extension (path ext : string) : Prop := extension path = Some ext.

(** Whether a dot occurs in [s]. *)
Fixpoint has_dot (s : string) : bool :=
  match s with
  | EmptyString => false
  | String c s' => Ascii.eqb c "."%char || has_dot s'
  end.

(** The event that the end of an [execute()] call is in the script of a
    run: a step returns or throws [FlowExecutionException]. *)
Definition exec_result_of (o : outcome unit) : option exec_result :=
  match o with
  | Returns _ => Some Completes
  | Throws (FlowExecutionException stepName) => Some (Raises stepName)
  | _ => None
  end.

(** A file system with one file, and one with none. *)
Definition only_file (path content : string) : string → option string :=
  λ p, if String.eqb p path then Some content else None.

Definition no_files : string → option string := λ _, None.

(** A flow of two steps, and a script that skips the first step and runs
    the second, whose [execute()] fails twice before it completes. *)
Definition demo_flow : Flow := addStep 2%N (addStep 1%N (Flow_new "demo" 0)).

Definition fails_twice : list event :=
  [Reply "y"%char; Exec (Raises "CSVInputStep"); Exec (Raises "CSVInputStep");
   Exec Completes; Reply "y"%char].

Definition demo_script : list event :=
  [Reply "n"%char; Reply "y"%char] ++ fails_twice.

(** A registry with one flow named a and two named b. *)
Definition demo_registry : System.t :=
  System.createFlow "b" 2 (System.createFlow "b" 1 (System.createFlow "a" 0 [])).

(** ** Further vocabulary: counting over a run *)

(** [completed + skipped ≤ started] on every entry: a visit is started
    once and resolved at most once. *)
Definition settled (f : Flow) : Prop :=
  ∀ q, completedCount (entry f q) + skippedCount (entry f q) ≤ startedCount (entry f q).

(** The failed calls of [execute()] among the events of a script. *)
Fixpoint raises (σ : list event) : Z :=
  match σ with
  | [] => 0
  | Exec (Raises _) :: σ' => 1 + raises σ'
  | _ :: σ' => raises σ'
  end.

(** The errors recorded over all entries of [analytics]. *)
Definition total_errors (f : Flow) : Z :=
  map_fold (λ _ a acc, errorCount a + acc) 0 (analytics f).

(** The script of a visit that is decided at once: run, executed without
    failure and confirmed, or else skipped. *)
Definition visit_script (run_it : bool) : list event :=
  if run_it then [Reply "y"%char; Exec Completes; Reply "y"%char]
  else [Reply "n"%char; Reply "y"%char].

(** One such visit for each step, in the order of the flow. *)
Fixpoint decided_script (ds : list bool) : list event :=
  match ds with
  | [] => []
  | d :: ds' => visit_script d ++ decided_script ds'
  end.

(** How often the address [p] stands in the flow with a decision that
    [which] selects; an address added twice is counted twice. *)
Fixpoint visits (p : StepPtr) (which : bool → bool) (l : list (N * bool)) : Z :=
  match l with
  | [] => 0
  | (q, d) :: l' =>
      (if decide (q = p) then if which d then 1 else 0 else 0) + visits p which l'
  end.

(** ** Further vocabulary: the steps *)

(** A string shorter than the greatest [size_t], as every [std::string]
    is. *)
Definition fits (s : string) : Prop := Z.of_nat (String.length s) < SIZE_MAX.

(** The strings and vectors of a step have sizes that a [size_t] holds. *)
Fixpoint sized (step : Step) : Prop :=
  match step with
  | TextInput self => fits (TextInputStep.textInput self)
  | CSVInput self => fits (CSVInputStep.csvFilePath self)
  | Calculus T _ self => Z.of_nat (length (CalculusStep.inputValues self)) ≤ SIZE_MAX
  | Display previousStep => sized previousStep
  | _ => True
  end.

(** A [CalculusStep] whose arithmetic overflows, or a display of one. *)
Fixpoint overflowing (step : Step) : bool :=
  match step with
  | Calculus T _ self => CalculusStep.overflows self
  | Display previousStep => overflowing previousStep
  | _ => false
  end.

(** The classes whose [execute()] holds no [throw], and displays of their
    objects. *)
Fixpoint throws_nothing (step : Step) : bool :=
  match step with
  | Title _ | Text _ | NumberInput _ _ _ | Calculus _ _ _ | End_step => true
  | Display previousStep => throws_nothing previousStep
  | _ => false
  end.

(** The names under which the step classes throw. *)
Definition thrown_names : list string :=
  ["TextInputStep"; "CSVInputStep"; "FileInputStep"; "DisplayStep"; "OutputStep"].

(** Whether a line feed occurs in [s]. *)
Fixpoint has_newline (s : string) : bool :=
  match s with
  | EmptyString => false
  | String c s' => Ascii.eqb c "010"%char || has_newline s'
  end.

(** The content of a file made of the given lines, each ended by a line
    feed. *)
Fixpoint unlines (ls : list string) : string :=
  match ls with
  | [] => EmptyString
  | l :: ls' => l +:+ String "010"%char (unlines ls')
  end.

(** ** Further examples *)

(** A registry in which no name is used twice. *)
Definition unique_registry : System.t :=
  System.createFlow "b" 1 (System.createFlow "a" 0 []).

(** A world without readable files, in which every file can be written. *)
Definition demo_world : world := mkWorld no_files "out" (λ _, true).

(** * Properties *)

(** ** Reasoning about outcomes *)

Lemma bind_Returns {A B} (o : outcome A) (k : A → outcome B) (b : B) :
  o ≫= k = Returns b → ∃ a, o = Returns a ∧ k a = Returns b.
Proof. destruct o; simpl; intros H; try discriminate. eauto. Qed.

Lemma quiet_bind {A B} (o : outcome A) (k : A → outcome B) :
  quiet o → (∀ a, o = Returns a → quiet (k a)) → quiet (o ≫= k).
Proof. destruct o; simpl; auto. Qed.

Lemma pre_increment_Returns x y :
  pre_increment x = Returns y → y = x + 1 ∧ x < INT_MAX.
Proof.
  unfold pre_increment. destruct (x <? INT_MAX) eqn:E; intros H; inversion H.
  apply Z.ltb_lt in E. auto.
Qed.

Lemma pre_increment_quiet x : quiet (pre_increment x).
Proof. unfold pre_increment. destruct (x <? INT_MAX); exact I. Qed.

Lemma pre_increment_lt x : x < INT_MAX → pre_increment x = Returns (x + 1).
Proof. intros H. unfold pre_increment. apply Z.ltb_lt in H. by rewrite H. Qed.

(** Takes a hypothesis [o ≫= k = Returns b] apart. *)
Ltac bind_inv H :=
  let a := fresh "a" in
  let Ha := fresh "Ha" in
  apply bind_Returns in H as (a & Ha & H); simpl in H.

(** ** Index arithmetic *)

Lemma size_t_inc_next i : 0 ≤ i < SIZE_MAX → size_t_inc i = i + 1.
Proof. intros H. unfold size_t_inc. apply Z.mod_small. lia. Qed.

Lemma size_t_inc_dec i : 0 ≤ i ≤ SIZE_MAX → size_t_inc (size_t_dec i) = i.
Proof.
  intros H. unfold size_t_inc, size_t_dec.
  rewrite Zplus_mod_idemp_l. replace (i - 1 + 1) with i by lia.
  apply Z.mod_small. lia.
Qed.

Lemma size_t_dec_zero : size_t_dec 0 = SIZE_MAX.
Proof. reflexivity. Qed.

Lemma size_t_dec_pos i : 0 < i ≤ SIZE_MAX → size_t_dec i = i - 1.
Proof. intros H. unfold size_t_dec. apply Z.mod_small. lia. Qed.

(** ** How the counters of a step evolve *)

Lemma counters_le_refl a : counters_le a a.
Proof. unfold counters_le. lia. Qed.

Lemma counters_le_trans a b c : counters_le a b → counters_le b c → counters_le a c.
Proof. unfold counters_le. lia. Qed.

Lemma evolves_refl f : evolves f f.
Proof. split; auto using counters_le_refl. Qed.

Lemma evolves_trans f g h : evolves f g → evolves g h → evolves f h.
Proof.
  intros [] []. split; try congruence.
  - intros q. eapply counters_le_trans; eauto.
  - set_solver.
  - intros q Hq. destruct (ev_dom_new1 q Hq) as [H|H]; [auto | right; congruence].
Qed.

Lemma evolves_size f f' : evolves f f' → size f' = size f.
Proof. intros H. unfold size. by rewrite (ev_steps _ _ H). Qed.

Lemma entry_set_analytics m f q :
  entry (set_analytics m f) q = default StepAnalytics_init (m !! q).
Proof. reflexivity. Qed.

Lemma entry_bumped f p a q :
  entry (set_analytics (<[p := a]> (analytics f)) f) q =
  if decide (p = q) then a else entry f q.
Proof.
  rewrite entry_set_analytics. case_decide; subst.
  - by rewrite lookup_insert_eq.
  - by rewrite lookup_insert_ne.
Qed.

Lemma step_at_Returns f i p :
  step_at f i = Returns p → 0 ≤ i < size f ∧ steps f !! Z.to_nat i = Some p.
Proof.
  unfold step_at. destruct (0 <=? i) eqn:E1; simpl; [|discriminate].
  destruct (i <? size f) eqn:E2; [|discriminate].
  destruct (steps f !! Z.to_nat i) eqn:E3; intros H; inversion H; subst.
  apply Z.leb_le in E1. apply Z.ltb_lt in E2. auto.
Qed.

Lemma step_at_in_range f i :
  0 ≤ i < size f → ∃ p, step_at f i = Returns p ∧ steps f !! Z.to_nat i = Some p.
Proof.
  intros [H1 H2]. unfold step_at.
  apply Z.leb_le in H1 as E1. apply Z.ltb_lt in H2 as E2. rewrite E1, E2. simpl.
  destruct (steps f !! Z.to_nat i) eqn:E3; eauto.
  apply lookup_ge_None in E3. unfold size in H2. lia.
Qed.

Lemma step_at_quiet f i : quiet (step_at f i).
Proof.
  unfold step_at. destruct (_ && _); [|exact I].
  destruct (steps f !! Z.to_nat i); exact I.
Qed.

Lemma step_at_evolves f f' i : evolves f f' → step_at f' i = step_at f i.
Proof.
  intros H. unfold step_at. by rewrite (evolves_size _ _ H), (ev_steps _ _ H).
Qed.

Lemma increment_Returns inc ds dc dk de a a' :
  increment inc ds dc dk de → inc a = Returns a' →
  startedCount a' = startedCount a + ds ∧ completedCount a' = completedCount a + dc ∧
  skippedCount a' = skippedCount a + dk ∧ errorCount a' = errorCount a + de.
Proof.
  intros Hinc H. destruct Hinc; unfold inc_started, inc_completed, inc_skipped, inc_error in H;
    bind_inv H; apply pre_increment_Returns in Ha as [-> _]; inversion H; simpl; lia.
Qed.

Lemma increment_quiet inc ds dc dk de a : increment inc ds dc dk de → quiet (inc a).
Proof.
  intros Hinc. destruct Hinc; unfold inc_started, inc_completed, inc_skipped, inc_error;
    (apply quiet_bind; [apply pre_increment_quiet | intros; exact I]).
Qed.

Lemma increment_nonneg inc ds dc dk de :
  increment inc ds dc dk de → 0 ≤ ds ∧ 0 ≤ dc ∧ 0 ≤ dk ∧ 0 ≤ de.
Proof. intros []; lia. Qed.

Lemma bump_Returns inc p f f' :
  bump inc p f = Returns f' →
  ∃ a', inc (entry f p) = Returns a' ∧ f' = set_analytics (<[p := a']> (analytics f)) f.
Proof. unfold bump. intros H. bind_inv H. inversion H. eauto. Qed.

Lemma bump_quiet inc ds dc dk de p f : increment inc ds dc dk de → quiet (bump inc p f).
Proof.
  intros Hinc. unfold bump. apply quiet_bind; [by eapply increment_quiet | intros; exact I].
Qed.

(** [++analytics[p].field] on a step of the flow. *)
Lemma bump_spec inc ds dc dk de p f f' :
  increment inc ds dc dk de → p ∈ steps f → bump inc p f = Returns f' →
  evolves f f' ∧
  startedCount (entry f' p) = startedCount (entry f p) + ds ∧
  completedCount (entry f' p) = completedCount (entry f p) + dc ∧
  skippedCount (entry f' p) = skippedCount (entry f p) + dk ∧
  errorCount (entry f' p) = errorCount (entry f p) + de ∧
  (∀ q, q ≠ p → entry f' q = entry f q).
Proof.
  intros Hinc Hp H. apply bump_Returns in H as (a' & Ha & ->).
  pose proof (increment_Returns _ _ _ _ _ _ _ Hinc Ha) as (Hs & Hc & Hk & He).
  pose proof (increment_nonneg _ _ _ _ _ Hinc) as (? & ? & ? & ?).
  split; [split; try reflexivity|].
  - intros q. rewrite entry_bumped. case_decide; subst.
    + unfold counters_le. lia.
    + apply counters_le_refl.
  - simpl. rewrite dom_insert_L. apply union_subseteq_r.
  - simpl. intros q. rewrite dom_insert_L.
    intros [Hq|Hq]%elem_of_union; [|by left].
    apply elem_of_singleton in Hq as ->. by right.
  - rewrite !entry_bumped. rewrite decide_True by done.
    repeat split; try done.
    intros q Hq. rewrite entry_bumped. by rewrite decide_False.
Qed.

Lemma delta_refl f p : delta f f p 0 0 0 0.
Proof. unfold delta. repeat split; auto; lia. Qed.

Lemma delta_trans f g h p s1 c1 k1 e1 s2 c2 k2 e2 :
  delta f g p s1 c1 k1 e1 → delta g h p s2 c2 k2 e2 →
  delta f h p (s1 + s2) (c1 + c2) (k1 + k2) (e1 + e2).
Proof.
  intros (? & ? & ? & ? & Hf) (? & ? & ? & ? & Hg).
  unfold delta. repeat split; try lia.
  intros q Hq. rewrite Hg, Hf; auto.
Qed.

Lemma step_at_elem f i p : step_at f i = Returns p → p ∈ steps f.
Proof.
  intros H. apply step_at_Returns in H as [_ H]. by eapply list_elem_of_lookup_2.
Qed.

Lemma bump_delta inc ds dc dk de p f f' :
  increment inc ds dc dk de → p ∈ steps f → bump inc p f = Returns f' →
  evolves f f' ∧ delta f f' p ds dc dk de.
Proof.
  intros Hinc Hp H.
  destruct (bump_spec _ _ _ _ _ _ _ _ Hinc Hp H) as (? & ? & ? & ? & ? & ?).
  unfold delta. auto 10.
Qed.

(** *** The retry loop *)

Lemma retry_loop_spec_n n : ∀ σ f i f' σ',
  (length σ ≤ n)%nat → retry_loop σ f i = Returns (f', σ') →
  ∃ p de, step_at f i = Returns p ∧ evolves f f' ∧ delta f f' p 0 1 0 de ∧
          0 ≤ de ∧ (length σ' < length σ)%nat.
Proof.
  induction n as [|n IH]; intros σ f i f' σ' Hn H.
  - destruct σ; [discriminate | simpl in Hn; lia].
  - destruct σ as [|[c|[|s]] σ1]; try discriminate; simpl in H, Hn.
    + destruct σ1 as [|[c|r] σ2]; try discriminate.
      destruct (is_yes c).
      * bind_inv H. bind_inv H. inversion H; subst.
        destruct (bump_delta _ _ _ _ _ _ _ _ incr_completed (step_at_elem _ _ _ Ha) Ha0)
          as [Hev Hd].
        exists a, 0. simpl. split_and!; auto; lia.
      * apply IH in H; [|simpl in Hn; lia].
        destruct H as (p & de & ? & ? & ? & ? & ?).
        exists p, de. simpl. split_and!; auto; lia.
    + bind_inv H. bind_inv H.
      destruct (bump_delta _ _ _ _ _ _ _ _ incr_error (step_at_elem _ _ _ Ha) Ha0)
        as [Hev Hd].
      apply IH in H; [|lia].
      destruct H as (p & de & Hp & Hev' & Hd' & Hde & Hlen).
      rewrite (step_at_evolves _ _ _ Hev) in Hp. rewrite Ha in Hp. inversion Hp; subst p.
      exists a, (1 + de). split_and!; eauto using evolves_trans; try lia.
      * pose proof (delta_trans _ _ _ _ _ _ _ _ _ _ _ _ Hd Hd') as Hdd. exact Hdd.
      * simpl. lia.
Qed.

Lemma retry_loop_spec σ f i f' σ' :
  retry_loop σ f i = Returns (f', σ') →
  ∃ p de, step_at f i = Returns p ∧ evolves f f' ∧ delta f f' p 0 1 0 de ∧
          0 ≤ de ∧ (length σ' < length σ)%nat.
Proof. by apply (retry_loop_spec_n (length σ)). Qed.

Lemma retry_loop_quiet_n n : ∀ σ f i, (length σ ≤ n)%nat → quiet (retry_loop σ f i).
Proof.
  induction n as [|n IH]; intros σ f i Hn.
  - destruct σ; [exact I | simpl in Hn; lia].
  - destruct σ as [|[c|[|s]] σ1]; try exact I; simpl in *.
    + destruct σ1 as [|[c|r] σ2]; try exact I.
      destruct (is_yes c).
      * apply quiet_bind; [apply step_at_quiet|]. intros p _.
        apply quiet_bind; [by eapply bump_quiet | intros; exact I].
      * apply IH. simpl in Hn. lia.
    + apply quiet_bind; [apply step_at_quiet|]. intros p _.
      apply quiet_bind; [by eapply bump_quiet |]. intros f' _. apply IH. lia.
Qed.

Lemma retry_loop_quiet σ f i : quiet (retry_loop σ f i).
Proof. by apply (retry_loop_quiet_n (length σ)). Qed.

(** *** One turn of the [for] loop *)

Lemma askUser_Returns σ b σ' :
  askUser σ = Returns (b, σ') → ∃ c, σ = Reply c :: σ' ∧ b = is_yes c.
Proof. destruct σ as [|[c|r] σ1]; try discriminate. intros H. inversion H. eauto. Qed.

Lemma askUser_quiet σ : quiet (askUser σ).
Proof. destruct σ as [|[c|r] σ1]; exact I. Qed.

(** What one turn does to the step it visits: [started] grows by one,
    [completed] by at most one, and the index is left alone or decremented. *)
Lemma body_spec σ f i f' i' σ' :
  body σ f i = Returns (f', i', σ') →
  ∃ p dc dk de, step_at f i = Returns p ∧ evolves f f' ∧ delta f f' p 1 dc dk de ∧
    0 ≤ dc ≤ 1 ∧ 0 ≤ dk ∧ 0 ≤ de ∧
    (i' = i ∧ dc + dk = 1 ∨ i' = size_t_dec i ∧ dc = 0 ∧ dk = 0 ∧ de = 0) ∧
    (length σ' < length σ)%nat.
Proof.
  unfold body, askUserToRunStep, askUserToSkipStep. intros H.
  bind_inv H. rename a into p. bind_inv H. rename a into f1.
  destruct (bump_delta _ _ _ _ _ _ _ _ incr_started (step_at_elem _ _ _ Ha) Ha0)
    as [Hev1 Hd1].
  bind_inv H. destruct a as [run_it σ1].
  apply askUser_Returns in Ha1 as (c & -> & ->).
  destruct (is_yes c).
  - bind_inv H. destruct a as [f2 σ2]. inversion H; subst.
    apply retry_loop_spec in Ha1 as (p' & de & Hp' & Hev2 & Hd2 & Hde & Hlen).
    rewrite (step_at_evolves _ _ _ Hev1), Ha in Hp'. inversion Hp'; subst p'.
    exists p, 1, 0, de. split_and!; eauto using evolves_trans; try lia.
    + exact (delta_trans _ _ _ _ _ _ _ _ _ _ _ _ Hd1 Hd2).
    + simpl. lia.
  - bind_inv H. destruct a as [skip_it σ2].
    apply askUser_Returns in Ha1 as (c' & -> & ->).
    destruct (is_yes c').
    + bind_inv H. bind_inv H. inversion H; subst.
      rewrite (step_at_evolves _ _ _ Hev1), Ha in Ha1. inversion Ha1; subst a.
      assert (Hin : p ∈ steps f1).
      { rewrite (ev_steps _ _ Hev1). by eapply step_at_elem. }
      destruct (bump_delta _ _ _ _ _ _ _ _ incr_skipped Hin Ha2) as [Hev2 Hd2].
      exists p, 0, 1, 0. split_and!; eauto using evolves_trans; try lia.
      * exact (delta_trans _ _ _ _ _ _ _ _ _ _ _ _ Hd1 Hd2).
      * simpl. lia.
    + inversion H; subst.
      exists p, 0, 0, 0. split_and!; auto; try lia.
      simpl. lia.
Qed.

Lemma body_quiet σ f i : quiet (body σ f i).
Proof.
  unfold body, askUserToRunStep, askUserToSkipStep.
  apply quiet_bind; [apply step_at_quiet|]. intros p _.
  apply quiet_bind; [by eapply bump_quiet|]. intros f1 _.
  apply quiet_bind; [apply askUser_quiet|]. intros [run_it σ1] _.
  destruct run_it.
  - apply quiet_bind; [apply retry_loop_quiet|]. intros [f2 σ2] _. exact I.
  - apply quiet_bind; [apply askUser_quiet|]. intros [skip_it σ2] _.
    destruct skip_it; [|exact I].
    apply quiet_bind; [apply step_at_quiet|]. intros p' _.
    apply quiet_bind; [by eapply bump_quiet | intros; exact I].
Qed.

(** *** The [for] loop *)

Lemma Returns_bind {A B} (a : A) (k : A → outcome B) : Returns a ≫= k = k a.
Proof. reflexivity. Qed.

Lemma for_loop_S fuel σ f i :
  for_loop (S fuel) σ f i =
  if i <? size f then
    body σ f i ≫= λ '(f', i', σ'), for_loop fuel σ' f' (size_t_inc i')
  else Returns (f, σ).
Proof. reflexivity. Qed.

Lemma for_loop_evolves fuel : ∀ σ f i f' σ',
  for_loop fuel σ f i = Returns (f', σ') → evolves f f' ∧ (length σ' ≤ length σ)%nat.
Proof.
  induction fuel as [|fuel IH]; intros σ f i f' σ' H; simpl in H;
    destruct (i <? size f); try discriminate;
    try (inversion H; subst; split; [apply evolves_refl | lia]).
  bind_inv H. destruct a as [[f1 i1] σ1].
  apply body_spec in Ha as (p & dc & dk & de & _ & Hev & _ & _ & _ & _ & _ & Hlen).
  apply IH in H as [Hev' Hlen']. split; [by eapply evolves_trans | lia].
Qed.

(** The loop absorbs every failure of a step: it throws nothing. *)
Lemma for_loop_no_throw fuel : ∀ σ f i e, for_loop fuel σ f i ≠ Throws e.
Proof.
  induction fuel as [|fuel IH]; intros σ f i e; simpl;
    destruct (i <? size f); try discriminate.
  pose proof (body_quiet σ f i) as Hq.
  destruct (body σ f i) as [[[f1 i1] σ1]| | | |]; simpl; try discriminate;
    [apply IH | done].
Qed.

(** One more turn than the script has events is bound enough. *)
Lemma for_loop_fuel fuel : ∀ σ f i,
  (length σ < fuel)%nat → for_loop fuel σ f i ≠ OutOfFuel.
Proof.
  induction fuel as [|fuel IH]; intros σ f i Hlen; [lia|]. simpl.
  destruct (i <? size f); try discriminate.
  pose proof (body_quiet σ f i) as Hq.
  destruct (body σ f i) as [[[f1 i1] σ1]| | | |] eqn:Hb; simpl; try discriminate; try done.
  apply IH.
  apply body_spec in Hb as (p & dc & dk & de & _ & _ & _ & _ & _ & _ & _ & Hlen').
  lia.
Qed.

Lemma for_loop_fuel_irrel n : ∀ m σ f i,
  (length σ < n)%nat → (length σ < m)%nat → for_loop n σ f i = for_loop m σ f i.
Proof.
  induction n as [|n IH]; intros m σ f i Hn Hm; [lia|].
  destruct m as [|m]; [lia|]. simpl.
  destruct (i <? size f); [|done].
  destruct (body σ f i) as [[[f1 i1] σ1]| | | |] eqn:Hb; simpl; try done.
  apply body_spec in Hb as (p & dc & dk & de & _ & _ & _ & _ & _ & _ & _ & Hlen').
  apply IH; lia.
Qed.

(** Where the index stands after one turn and the [++i] of the header. *)
Lemma body_next_index σ f i f' i' σ' :
  size f ≤ SIZE_MAX → body σ f i = Returns (f', i', σ') →
  0 ≤ i < size f ∧ (size_t_inc i' = i + 1 ∨ size_t_inc i' = i).
Proof.
  intros Hsz H.
  apply body_spec in H as (p & dc & dk & de & Hp & _ & _ & _ & _ & _ & Hi & _).
  apply step_at_Returns in Hp as [Hr _]. split; [done|].
  destruct Hi as [[-> _]|[-> _]].
  - left. apply size_t_inc_next. lia.
  - right. apply size_t_inc_dec. lia.
Qed.

Lemma body_balanced σ f i f' i' σ' :
  body σ f i = Returns (f', i', σ') → balanced f → balanced f'.
Proof.
  intros H Hb q.
  apply body_spec in H as (p & dc & dk & de & _ & _ & Hd & Hdc & _).
  destruct Hd as (Hs & Hc & _ & _ & Hother). specialize (Hb q).
  destruct (decide (q = p)) as [->|Hne].
  - lia.
  - by rewrite (Hother q Hne).
Qed.

Lemma for_loop_balanced fuel : ∀ σ f i f' σ',
  for_loop fuel σ f i = Returns (f', σ') → balanced f → balanced f'.
Proof.
  induction fuel as [|fuel IH]; intros σ f i f' σ' H Hb; simpl in H;
    destruct (i <? size f); try discriminate; try (by inversion H; subst).
  bind_inv H. destruct a as [[f1 i1] σ1].
  eapply IH; [exact H|]. by eapply body_balanced.
Qed.

(** Every step from index [i] on is visited: its [started] grows. *)
Lemma for_loop_visits fuel : ∀ σ f i f' σ',
  for_loop fuel σ f i = Returns (f', σ') → 0 ≤ i → size f ≤ SIZE_MAX →
  ∀ j p, i ≤ j → steps f !! Z.to_nat j = Some p →
         startedCount (entry f p) + 1 ≤ startedCount (entry f' p).
Proof.
  induction fuel as [|fuel IH]; intros σ f i f' σ' H Hi Hsz j p Hj Hp; simpl in H.
  - destruct (i <? size f) eqn:E; [discriminate|]. inversion H; subst.
    apply Z.ltb_ge in E. apply lookup_lt_Some in Hp. unfold size in E. lia.
  - destruct (i <? size f) eqn:E.
    2:{ inversion H; subst. apply Z.ltb_ge in E. apply lookup_lt_Some in Hp.
        unfold size in E. lia. }
    bind_inv H. destruct a as [[f1 i1] σ1].
    pose proof (body_next_index _ _ _ _ _ _ Hsz Ha) as [Hr Hnext].
    pose proof Ha as Hspec.
    apply body_spec in Hspec as (p0 & dc & dk & de & Hp0 & Hev & Hd & _).
    apply step_at_Returns in Hp0 as [_ Hp0].
    pose proof (for_loop_evolves _ _ _ _ _ _ H) as [Hev' _].
    assert (Hsz1 : size f1 ≤ SIZE_MAX) by by rewrite (evolves_size _ _ Hev).
    assert (Hp1 : steps f1 !! Z.to_nat j = Some p) by by rewrite (ev_steps _ _ Hev).
    destruct (decide (j = i)) as [->|Hne].
    + (* the step of this turn *)
      rewrite Hp in Hp0. inversion Hp0; subst p0.
      destruct Hd as (Hs & _). pose proof (ev_counters _ _ Hev' p) as (Hle & _). lia.
    + destruct Hnext as [Hn|Hn]; rewrite Hn in H.
      * pose proof (IH _ _ _ _ _ H ltac:(lia) Hsz1 j p ltac:(lia) Hp1) as Hlater.
        pose proof (ev_counters _ _ Hev p) as (Hle & _). lia.
      * pose proof (IH _ _ _ _ _ H ltac:(lia) Hsz1 j p ltac:(lia) Hp1) as Hlater.
        pose proof (ev_counters _ _ Hev p) as (Hle & _). lia.
Qed.

(** A step of the flow stands at one position at least. *)
Lemma positions_elem p (l : list N) : p ∈ l → 1 ≤ positions p l.
Proof.
  assert (Hnn : ∀ l' : list N, 0 ≤ positions p l').
  { induction l' as [|q l' IH]; simpl; [lia|]. destruct (decide (q = p)); lia. }
  induction l as [|q l IH]; intros Hp; [by apply elem_of_nil in Hp|]. simpl.
  specialize (Hnn l). destruct (decide (q = p)) as [->|Hne]; [lia|].
  apply elem_of_cons in Hp as [->|Hp]; [done|]. specialize (IH Hp). lia.
Qed.

(** The loop from index [i] on resolves every position once: the step
    there is completed or skipped once, after one or more visits. *)
Lemma for_loop_resolves fuel : ∀ σ f i f' σ',
  for_loop fuel σ f i = Returns (f', σ') → 0 ≤ i → size f ≤ SIZE_MAX →
  ∀ p, resolved f' p = resolved f p + positions p (drop (Z.to_nat i) (steps f)) ∧
       startedCount (entry f p) + positions p (drop (Z.to_nat i) (steps f))
         ≤ startedCount (entry f' p).
Proof.
  induction fuel as [|fuel IH]; intros σ f i f' σ' H Hi Hsz p; simpl in H.
  - destruct (i <? size f) eqn:E; [discriminate|]. inversion H; subst.
    apply Z.ltb_ge in E. unfold size in E. rewrite drop_ge by lia. simpl. lia.
  - destruct (i <? size f) eqn:E.
    2:{ inversion H; subst. apply Z.ltb_ge in E. unfold size in E.
        rewrite drop_ge by lia. simpl. lia. }
    apply Z.ltb_lt in E.
    bind_inv H. destruct a as [[f1 i1] σ1].
    apply body_spec in Ha as (p0 & dc & dk & de & Hp0 & Hev & Hd & Hdc & Hdk & _ & Hnext & _).
    apply step_at_Returns in Hp0 as [_ Hp0].
    assert (Hsz1 : size f1 ≤ SIZE_MAX) by by rewrite (evolves_size _ _ Hev).
    destruct Hd as (Hs & Hc & Hk & _ & Hother).
    destruct Hnext as [[-> Hone]|(-> & -> & -> & _)].
    + rewrite size_t_inc_next in H by lia.
      destruct (IH _ _ _ _ _ H ltac:(lia) Hsz1 p) as [Hres Hst].
      rewrite (ev_steps _ _ Hev) in Hres, Hst.
      rewrite (drop_S _ p0 (Z.to_nat i)) by done. simpl.
      replace (Z.to_nat (i + 1)) with (S (Z.to_nat i)) in Hres, Hst by lia.
      unfold resolved in *.
      destruct (decide (p0 = p)) as [->|Hne].
      * lia.
      * rewrite (Hother p) in Hres, Hst by done. lia.
    + rewrite size_t_inc_dec in H by lia.
      destruct (IH _ _ _ _ _ H ltac:(lia) Hsz1 p) as [Hres Hst].
      rewrite (ev_steps _ _ Hev) in Hres, Hst. unfold resolved in *.
      destruct (decide (p = p0)) as [->|Hne].
      * lia.
      * rewrite (Hother p) in Hres, Hst by done. lia.
Qed.

(** *** [run] as a whole *)

Lemma inc_flowStarted_Returns f f0 :
  inc_flowStarted f = Returns f0 →
  f0 = mkFlow (name f) (steps f) (timestamp f) (analytics f)
              (flowStartedCount f + 1) (flowCompletedCount f) (totalErrorsAcrossFlows f).
Proof.
  unfold inc_flowStarted. intros H. bind_inv H.
  apply pre_increment_Returns in Ha as [-> _]. by inversion H.
Qed.

Lemma inc_flowCompleted_Returns f f0 :
  inc_flowCompleted f = Returns f0 →
  f0 = mkFlow (name f) (steps f) (timestamp f) (analytics f)
              (flowStartedCount f) (flowCompletedCount f + 1) (totalErrorsAcrossFlows f).
Proof.
  unfold inc_flowCompleted. intros H. bind_inv H.
  apply pre_increment_Returns in Ha as [-> _]. by inversion H.
Qed.

(** [run] split into its three phases. *)
Lemma run_Returns σ f f' σ' :
  run σ f = Returns (f', σ') →
  ∃ f0 f1, inc_flowStarted f = Returns f0 ∧
           for_loop (S (length σ)) σ f0 0 = Returns (f1, σ') ∧
           inc_flowCompleted f1 = Returns f'.
Proof.
  unfold run. intros H. bind_inv H. bind_inv H. destruct a0 as [f1 σ1].
  bind_inv H. inversion H; subst. eauto.
Qed.

Lemma quiet_not_Throws {A} (o : outcome A) e : quiet o → o ≠ Throws e.
Proof. by destruct o. Qed.

Lemma quiet_not_OutOfFuel {A} (o : outcome A) : quiet o → o ≠ OutOfFuel.
Proof. by destruct o. Qed.

Lemma bind_not_Throws {A B} (o : outcome A) (k : A → outcome B) e :
  (∀ e', o ≠ Throws e') → (∀ a, o = Returns a → k a ≠ Throws e) → o ≫= k ≠ Throws e.
Proof.
  destruct o; simpl; intros H1 H2; try discriminate; [by apply H2|].
  by destruct (H1 e0).
Qed.

Lemma bind_not_OutOfFuel {A B} (o : outcome A) (k : A → outcome B) :
  o ≠ OutOfFuel → (∀ a, o = Returns a → k a ≠ OutOfFuel) → o ≫= k ≠ OutOfFuel.
Proof. destruct o; simpl; intros H1 H2; try discriminate; [by apply H2 | done]. Qed.

Lemma inc_flowStarted_quiet f : quiet (inc_flowStarted f).
Proof. apply quiet_bind; [apply pre_increment_quiet | intros; exact I]. Qed.

Lemma inc_flowCompleted_quiet f : quiet (inc_flowCompleted f).
Proof. apply quiet_bind; [apply pre_increment_quiet | intros; exact I]. Qed.

Lemma run_no_throw σ f e : run σ f ≠ Throws e.
Proof.
  unfold run. apply bind_not_Throws.
  { intros e'. apply quiet_not_Throws, inc_flowStarted_quiet. }
  intros f0 _. apply bind_not_Throws; [apply for_loop_no_throw|].
  intros [f1 σ1] _. apply bind_not_Throws; [|discriminate].
  intros e'. apply quiet_not_Throws, inc_flowCompleted_quiet.
Qed.

Lemma run_fuel σ f : run σ f ≠ OutOfFuel.
Proof.
  unfold run. apply bind_not_OutOfFuel.
  { apply quiet_not_OutOfFuel, inc_flowStarted_quiet. }
  intros f0 _. apply bind_not_OutOfFuel; [apply for_loop_fuel; lia|].
  intros [f1 σ1] _. apply bind_not_OutOfFuel; [|discriminate].
  apply quiet_not_OutOfFuel, inc_flowCompleted_quiet.
Qed.

Lemma run_spec σ f f' σ' : run σ f = Returns (f', σ') → run_effect f f'.
Proof.
  intros H. apply run_Returns in H as (f0 & f1 & H0 & Hloop & H2).
  apply inc_flowStarted_Returns in H0. apply inc_flowCompleted_Returns in H2.
  pose proof (for_loop_evolves _ _ _ _ _ _ Hloop) as [Hev _].
  destruct Hev as [E1 E2 E3 E4 E5 E6 E7 E8 E9].
  assert (He0 : ∀ q, entry f0 q = entry f q) by by subst f0.
  assert (He2 : ∀ q, entry f' q = entry f1 q) by by subst f'.
  split.
  - subst f' f0. simpl in *. congruence.
  - subst f' f0. simpl in *. congruence.
  - subst f' f0. simpl in *. congruence.
  - subst f' f0. simpl in *. congruence.
  - subst f' f0. simpl in *. congruence.
  - subst f' f0. simpl in *. congruence.
  - intros q. rewrite He2, <- He0. apply E7.
  - subst f' f0. simpl in *. done.
  - subst f' f0. simpl in *. done.
  - intros Hb q. rewrite He2.
    apply (for_loop_balanced _ _ _ _ _ _ Hloop). intros q'. rewrite He0. apply Hb.
  - intros Hsz p Hp. apply list_elem_of_lookup in Hp as [j Hj].
    rewrite He2, <- He0.
    apply (for_loop_visits _ _ _ _ _ _ Hloop ltac:(lia)) with (j := Z.of_nat j).
    + by subst f0.
    + lia.
    + rewrite Nat2Z.id. by subst f0.
Qed.

(** ** The flows the program can hold *)

Lemma entry_addStep step f q : entry (addStep step f) q = entry f q.
Proof.
  unfold entry at 1. simpl. destruct (decide (step = q)) as [->|Hne].
  - by rewrite lookup_insert_eq.
  - by rewrite lookup_insert_ne.
Qed.

Lemma size_addStep step f : size (addStep step f) = size f + 1.
Proof. unfold size. simpl. rewrite length_app. simpl. lia. Qed.

Lemma well_formed_new n now : well_formed (Flow_new n now).
Proof.
  split.
  - unfold size, SIZE_MAX. simpl. lia.
  - intros q. unfold entry. simpl. rewrite lookup_empty. simpl. lia.
  - intros p Hp. simpl in Hp. by apply elem_of_nil in Hp.
  - intros q. unfold entry. simpl. rewrite lookup_empty. apply counters_le_refl.
Qed.

Lemma well_formed_addStep step f :
  well_formed f → size f < SIZE_MAX → well_formed (addStep step f).
Proof.
  intros [W1 W2 W3 W4] Hsz. split.
  - rewrite size_addStep. lia.
  - intros q. rewrite entry_addStep. apply W2.
  - intros p Hp. simpl in *. rewrite dom_insert_L.
    apply elem_of_app in Hp as [Hp|Hp].
    + apply elem_of_union_r. by apply W3.
    + apply list_elem_of_singleton in Hp as ->. apply elem_of_union_l. by apply elem_of_singleton.
  - intros q. rewrite entry_addStep. apply W4.
Qed.

Lemma well_formed_run σ f f' σ' :
  well_formed f → run σ f = Returns (f', σ') → well_formed f'.
Proof.
  intros [W1 W2 W3 W4] H. apply run_spec in H. destruct H. split.
  - unfold size in *. by rewrite re_steps0.
  - auto.
  - intros p Hp. rewrite re_steps0 in Hp. apply re_dom_keep0. by apply W3.
  - intros q. eapply counters_le_trans; [apply W4 | apply re_counters0].
Qed.

Lemma reachable_well_formed f : reachable f → well_formed f.
Proof.
  induction 1; eauto using well_formed_new, well_formed_addStep, well_formed_run.
Qed.

(** The accumulator [totalErrorsAcrossFlows] is initialised to zero and no
    member function assigns it. *)
Lemma reachable_total f : reachable f → totalErrorsAcrossFlows f = 0.
Proof.
  induction 1; simpl; auto.
  apply run_spec in H0. destruct H0. congruence.
Qed.

(** ** The claims about [run] *)

(** C1.  [run] propagates no exception, however often a step's
    [execute()] fails.  Under every script that lets it terminate (the
    prompter does not leave it waiting, no counter is at [INT_MAX]), [run]
    returns normally.  It first raises [flowStartedCount] by one and
    nothing else.  Then the loop visits and resolves every step: when it
    ends, each step has been started at least once for each of its
    positions in the flow and has been completed or skipped exactly once for
    each of them, and [flowCompletedCount] still has its old value.  Last
    [run] raises [flowCompletedCount] by one and leaves the counters of the
    steps as the loop left them. *)
Theorem run_returns_normally (σ : list event) (f : Flow) :
  run σ f ≠ Blocked → run σ f ≠ Undefined →
  (∀ e, run σ f ≠ Throws e) ∧
  ∃ f0 f1 f' σ',
    run σ f = Returns (f', σ') ∧
    inc_flowStarted f = Returns f0 ∧
    flowStartedCount f0 = flowStartedCount f + 1 ∧
    flowCompletedCount f0 = flowCompletedCount f ∧
    (∀ p, entry f0 p = entry f p) ∧
    for_loop (S (length σ)) σ f0 0 = Returns (f1, σ') ∧
    (size f ≤ SIZE_MAX →
     (∀ p, p ∈ steps f → startedCount (entry f p) + 1 ≤ startedCount (entry f1 p)) ∧
     (∀ p, startedCount (entry f p) + positions p (steps f) ≤ startedCount (entry f1 p)) ∧
     (∀ p, resolved f1 p = resolved f p + positions p (steps f))) ∧
    flowStartedCount f1 = flowStartedCount f + 1 ∧
    flowCompletedCount f1 = flowCompletedCount f ∧
    inc_flowCompleted f1 = Returns f' ∧
    (∀ p, entry f' p = entry f1 p) ∧
    flowStartedCount f' = flowStartedCount f + 1 ∧
    flowCompletedCount f' = flowCompletedCount f + 1.
Proof.
  intros Hb Hu. split; [intros e; apply run_no_throw|].
  destruct (run σ f) as [[f' σ']|e| | |] eqn:Hrun.
  - pose proof (run_spec _ _ _ _ Hrun) as Heff.
    apply run_Returns in Hrun as (f0 & f1 & H0 & Hloop & H2).
    exists f0, f1, f', σ'.
    pose proof (inc_flowStarted_Returns _ _ H0) as E0.
    pose proof (inc_flowCompleted_Returns _ _ H2) as E2.
    pose proof (for_loop_evolves _ _ _ _ _ _ Hloop) as [Hev _].
    assert (He0 : ∀ p, entry f0 p = entry f p) by by subst f0.
    split_and!; auto.
    + by subst f0.
    + by subst f0.
    + intros Hsz.
      assert (Hsz0 : size f0 ≤ SIZE_MAX) by by subst f0.
      assert (Hst : steps f0 = steps f) by by subst f0.
      pose proof (for_loop_resolves _ _ _ _ _ _ Hloop ltac:(lia) Hsz0) as Hres.
      rewrite Hst in Hres. change (Z.to_nat 0) with 0%nat in Hres.
      setoid_rewrite drop_0 in Hres. split_and!.
      * intros p Hp. destruct (Hres p) as [_ Hs]. rewrite He0 in Hs.
        pose proof (positions_elem p (steps f) Hp). lia.
      * intros p. destruct (Hres p) as [_ Hs]. by rewrite He0 in Hs.
      * intros p. destruct (Hres p) as [Hr _]. unfold resolved in *.
        by rewrite !He0 in Hr.
    + rewrite (ev_flowStarted _ _ Hev). by subst f0.
    + rewrite (ev_flowCompleted _ _ Hev). by subst f0.
    + by subst f'.
    + apply (re_flowStarted _ _ Heff).
    + apply (re_flowCompleted _ _ Heff).
  - by destruct (run_no_throw σ f e).
  - done.
  - done.
  - by destruct (run_fuel σ f).
Qed.

(** C2.  After one full [run] of a flow, every step's [started] count has
    grown by at least one and [completed ≤ started] holds for every step;
    neither [run] nor [addStep] lowers any of the four counters of any
    step. *)
Theorem run_counters (σ σ' : list event) (f f' : Flow) :
  reachable f → run σ f = Returns (f', σ') →
  (∀ p, p ∈ steps f →
        startedCount (entry f p) + 1 ≤ startedCount (entry f' p)) ∧
  (∀ p, p ∈ steps f' →
        completedCount (entry f' p) ≤ startedCount (entry f' p)) ∧
  (∀ p, counters_le (entry f p) (entry f' p)) ∧
  (∀ step p, counters_le (entry f p) (entry (addStep step f) p)).
Proof.
  intros Hr Hrun. apply reachable_well_formed in Hr as [W1 W2 W3 W4].
  apply run_spec in Hrun. destruct Hrun. split_and!.
  - auto.
  - intros p _. by apply re_balanced0.
  - done.
  - intros step p. rewrite entry_addStep. apply counters_le_refl.
Qed.

(** C10.  [run] changes the counters only: the name, the timestamp, the
    sequence of steps and the set of keys of [analytics] are the same
    after it. *)
Theorem run_frame (σ σ' : list event) (f f' : Flow) :
  reachable f → run σ f = Returns (f', σ') →
  name f' = name f ∧ timestamp f' = timestamp f ∧ steps f' = steps f ∧
  dom (analytics f') = dom (analytics f).
Proof.
  intros Hr Hrun. apply reachable_well_formed in Hr as [W1 W2 W3 W4].
  apply run_spec in Hrun. destruct Hrun. split_and!; auto.
  apply set_eq. intros q. split.
  - intros Hq. destruct (re_dom_new0 q Hq); auto.
  - apply re_dom_keep0.
Qed.

(** ** The visits of one step during a run *)

Lemma at_header_inv σ f f1 k σ1 :
  at_header σ f f1 k σ1 → size f ≤ SIZE_MAX →
  steps f1 = steps f ∧ 0 ≤ k ∧ (∀ q, counters_le (entry f q) (entry f1 q)).
Proof.
  induction 1 as [f0 H0|f1 i σ1 f2 i2 σ2 Hat IH Hi Hb]; intros Hsz.
  - apply inc_flowStarted_Returns in H0. subst f0. simpl. split_and!; auto; try lia.
    intros q. apply counters_le_refl.
  - destruct (IH Hsz) as (Hst & Hk & Hc).
    assert (Hsz1 : size f1 ≤ SIZE_MAX) by (unfold size in *; by rewrite Hst).
    pose proof (body_next_index _ _ _ _ _ _ Hsz1 Hb) as [Hr Hn].
    apply body_spec in Hb as (p & dc & dk & de & _ & Hev & _).
    split_and!.
    + by rewrite (ev_steps _ _ Hev).
    + lia.
    + intros q. eapply counters_le_trans; [apply Hc | apply (ev_counters _ _ Hev)].
Qed.

(** From a header the run goes on as the loop does from there. *)
Lemma at_header_continue σ f f1 k σ1 :
  at_header σ f f1 k σ1 →
  ∃ f0, inc_flowStarted f = Returns f0 ∧
        for_loop (S (length σ)) σ f0 0 = for_loop (S (length σ1)) σ1 f1 k.
Proof.
  induction 1 as [f0 H0|f1 i σ1 f2 i2 σ2 Hat IH Hi Hb]; [eauto|].
  destruct IH as (f0 & H0 & IH). exists f0. split; [done|].
  rewrite IH, for_loop_S. apply Z.ltb_lt in Hi. rewrite Hi, Hb, Returns_bind.
  apply body_spec in Hb as (p & dc & dk & de & _ & _ & _ & _ & _ & _ & _ & Hlen).
  apply for_loop_fuel_irrel; lia.
Qed.

(** Turns of the loop at other steps leave the entry of [p] alone. *)
Lemma for_loop_untouched fuel p : ∀ σ f k f' σ',
  for_loop fuel σ f k = Returns (f', σ') → 0 ≤ k → size f ≤ SIZE_MAX →
  (∀ j, k ≤ j → steps f !! Z.to_nat j ≠ Some p) →
  entry f' p = entry f p.
Proof.
  induction fuel as [|fuel IH]; intros σ f k f' σ' H Hk Hsz Hnot; simpl in H;
    destruct (k <? size f) eqn:E; try discriminate; try (by inversion H; subst).
  bind_inv H. destruct a as [[f1 i1] σ1].
  pose proof (body_next_index _ _ _ _ _ _ Hsz Ha) as [Hr Hnext].
  apply body_spec in Ha as (p0 & dc & dk & de & Hp0 & Hev & Hd & _).
  apply step_at_Returns in Hp0 as [_ Hp0].
  assert (Hne : p ≠ p0).
  { intros ->. by apply (Hnot k ltac:(lia)). }
  destruct Hd as (_ & _ & _ & _ & Hother). rewrite <- (Hother p Hne).
  apply (IH _ _ _ _ _ H).
  - lia.
  - by rewrite (evolves_size _ _ Hev).
  - intros j Hj. rewrite (ev_steps _ _ Hev). apply Hnot. lia.
Qed.

(** Until the loop has advanced past the one index of [p], the only turns
    at [p] were those answered no and no: they raise [started] alone. *)
Lemma at_header_before σ f f1 k σ1 i p :
  at_header σ f f1 k σ1 → size f ≤ SIZE_MAX →
  (∀ j, steps f !! j = Some p → j = Z.to_nat i) → 0 ≤ i → k ≤ i →
  completedCount (entry f1 p) = completedCount (entry f p) ∧
  skippedCount (entry f1 p) = skippedCount (entry f p) ∧
  errorCount (entry f1 p) = errorCount (entry f p).
Proof.
  induction 1 as [f0 H0|f1 k0 σ1 f2 i2 σ2 Hat IH Hk0 Hb]; intros Hsz Huniq Hi Hk.
  - apply inc_flowStarted_Returns in H0. by subst f0.
  - destruct (at_header_inv _ _ _ _ _ Hat Hsz) as (Hst & Hk0' & _).
    assert (Hsz1 : size f1 ≤ SIZE_MAX) by (unfold size in *; by rewrite Hst).
    pose proof (body_next_index _ _ _ _ _ _ Hsz1 Hb) as [Hr Hn].
    destruct (IH Hsz Huniq Hi ltac:(lia)) as (Hc & Hs & He).
    apply body_spec in Hb as (p0 & dc & dk & de & Hp0 & Hev & Hd & Hdc & Hdk & Hde & Hcase & _).
    apply step_at_Returns in Hp0 as [_ Hp0].
    destruct Hd as (_ & Hdc' & Hdk' & Hde' & Hother).
    destruct (decide (p = p0)) as [<-|Hne].
    + rewrite Hst in Hp0. apply Huniq in Hp0.
      assert (k0 = i) as -> by lia.
      destruct Hcase as [[-> _]|(-> & -> & -> & ->)].
      * rewrite size_t_inc_next in Hk by lia. lia.
      * lia.
    + rewrite (Hother p Hne). auto.
Qed.

(** The turn that runs a step whose [execute()] fails twice and then
    completes. *)
Lemma body_fails_twice c s1 s2 c' rest f i f' i' σ' :
  is_yes c = true → is_yes c' = true →
  body (Reply c :: Exec (Raises s1) :: Exec (Raises s2) :: Exec Completes
          :: Reply c' :: rest) f i = Returns (f', i', σ') →
  ∃ p, step_at f i = Returns p ∧ i' = i ∧ σ' = rest ∧ evolves f f' ∧
       delta f f' p 1 1 0 2.
Proof.
  intros Hc Hc' H. unfold body, askUserToRunStep in H.
  bind_inv H. rename a into p. bind_inv H. rename a into f1.
  rewrite Hc in H.
  destruct (bump_delta _ _ _ _ _ _ _ _ incr_started (step_at_elem _ _ _ Ha) Ha0)
    as [Hev1 Hd1].
  bind_inv H. destruct a as [f2 σ2]. inversion H; subst. clear H.
  simpl in Ha1. rewrite Hc' in Ha1.
  rewrite (step_at_evolves _ _ _ Hev1), Ha in Ha1. simpl in Ha1.
  bind_inv Ha1. rename a into g1.
  destruct (bump_delta _ _ _ _ _ _ _ _ incr_error
              ltac:(rewrite (ev_steps _ _ Hev1); by eapply step_at_elem) Ha2)
    as [Hev2 Hd2].
  assert (Hev12 : evolves f g1) by by eapply evolves_trans.
  rewrite (step_at_evolves _ _ _ Hev12), Ha in Ha1. simpl in Ha1.
  bind_inv Ha1. rename a into g2.
  destruct (bump_delta _ _ _ _ _ _ _ _ incr_error
              ltac:(rewrite (ev_steps _ _ Hev12); by eapply step_at_elem) Ha3)
    as [Hev3 Hd3].
  assert (Hev13 : evolves f g2) by by eapply evolves_trans.
  rewrite (step_at_evolves _ _ _ Hev13), Ha in Ha1. simpl in Ha1.
  bind_inv Ha1. rename a into g3. inversion Ha1; subst. clear Ha1.
  destruct (bump_delta _ _ _ _ _ _ _ _ incr_completed
              ltac:(rewrite (ev_steps _ _ Hev13); by eapply step_at_elem) Ha4)
    as [Hev4 Hd4].
  exists p. split_and!; auto; [by eapply evolves_trans|].
  pose proof (delta_trans _ _ _ _ _ _ _ _ _ _ _ _ Hd1
               (delta_trans _ _ _ _ _ _ _ _ _ _ _ _ Hd2
                 (delta_trans _ _ _ _ _ _ _ _ _ _ _ _ Hd3 Hd4))) as Hd.
  exact Hd.
Qed.

(** C3.  A step of a run that the prompter lets run, whose [execute()]
    fails twice and then completes, and that is then confirmed as
    completed, ends the run with two more errors, one more completion and
    at least one more start than it had; counted from zero that is
    [errors = 2], [completed = 1], [started ≥ 1].  Each failure raises
    [errorCount] by one and goes round the retry loop again. *)
Theorem run_fails_twice (σ σ' rest : list event) (f f1 f' : Flow) (i : Z)
    (p : StepPtr) (c c' : Ascii.ascii) (s1 s2 : string) :
  reachable f →
  0 ≤ i → steps f !! Z.to_nat i = Some p →
  (∀ j, steps f !! j = Some p → j = Z.to_nat i) →
  is_yes c = true → is_yes c' = true →
  at_header σ f f1 i (Reply c :: Exec (Raises s1) :: Exec (Raises s2)
                        :: Exec Completes :: Reply c' :: rest) →
  run σ f = Returns (f', σ') →
  (errorCount (entry f' p) = errorCount (entry f p) + 2 ∧
   completedCount (entry f' p) = completedCount (entry f p) + 1 ∧
   startedCount (entry f p) + 1 ≤ startedCount (entry f' p)) ∧
  (errorCount (entry f p) = 0 → completedCount (entry f p) = 0 →
   errorCount (entry f' p) = 2 ∧ completedCount (entry f' p) = 1 ∧
   1 ≤ startedCount (entry f' p)) ∧
  (∀ g s ρ, step_at g i = Returns p →
     retry_loop (Exec (Raises s) :: ρ) g i =
     bump inc_error p g ≫= λ g', retry_loop ρ g' i).
Proof.
  intros Hr Hi Hp Huniq Hc Hc' Hat Hrun.
  apply reachable_well_formed in Hr as [Hsz _ _ Hnn].
  assert (Hmain : errorCount (entry f' p) = errorCount (entry f p) + 2 ∧
                  completedCount (entry f' p) = completedCount (entry f p) + 1 ∧
                  startedCount (entry f p) + 1 ≤ startedCount (entry f' p)).
  { destruct (at_header_inv _ _ _ _ _ Hat Hsz) as (Hst & _ & Hle).
    destruct (at_header_before _ _ _ _ _ i p Hat Hsz Huniq Hi ltac:(lia))
      as (Hcb & _ & Heb).
    destruct (at_header_continue _ _ _ _ _ Hat) as (f0 & H0 & Hcont).
    apply run_Returns in Hrun as (f0' & f2 & H0' & Hloop & H2).
    rewrite H0 in H0'. inversion H0'; subst f0'. rewrite Hcont in Hloop.
    apply inc_flowCompleted_Returns in H2.
    assert (He2 : entry f' p = entry f2 p) by by subst f'.
    assert (Hlt : i < size f1).
    { unfold size. rewrite Hst. apply lookup_lt_Some in Hp. lia. }
    apply Z.ltb_lt in Hlt as Hltb. rewrite for_loop_S, Hltb in Hloop.
    apply bind_Returns in Hloop as ([[g i2] σ2] & Ha & Hloop).
    apply body_fails_twice in Ha as (p' & Hp' & -> & -> & Hev & Hd); [|done..].
    apply step_at_Returns in Hp' as [_ Hp']. rewrite Hst, Hp in Hp'.
    inversion Hp'; subst p'.
    assert (Hsz1 : size f1 ≤ SIZE_MAX) by (unfold size in *; by rewrite Hst).
    assert (Hsame : entry f2 p = entry g p).
    { apply (for_loop_untouched _ p _ _ _ _ _ Hloop).
      - rewrite size_t_inc_next; lia.
      - by rewrite (evolves_size _ _ Hev).
      - intros j Hj Hjp. rewrite (ev_steps _ _ Hev), Hst in Hjp.
        apply Huniq in Hjp. rewrite size_t_inc_next in Hj by lia. lia. }
    destruct Hd as (Hds & Hdc & _ & Hde & _).
    pose proof (Hle p) as (Hles & _).
    rewrite He2, Hsame. lia. }
  split; [exact Hmain|]. split.
  - intros He Hc0. destruct Hmain as (? & ? & ?).
    pose proof (Hnn p) as (Hs0 & _). simpl in Hs0. lia.
  - intros g s ρ Hg. simpl. by rewrite Hg.
Qed.

(** ** Neither run nor skip *)

Lemma bump_started_lt p f :
  startedCount (entry f p) < INT_MAX →
  ∃ f1, bump inc_started p f = Returns f1.
Proof.
  intros H. unfold bump, inc_started. rewrite (pre_increment_lt _ H). simpl. eauto.
Qed.

(** C5, as the code has it.  When the prompter answers no to the run and to
    the skip question at step [i], the turn ends with the index decremented
    modulo 2^64 and without any other change than [started] raised by one;
    the [++i] of the header brings the index back to [i], so the loop stands
    at the same step again, and the next turn raises [started] once more.
    No guard keeps the decrement from wrapping at index 0. *)
Theorem run_retries_same_step (fuel : nat) (σ : list event) (f : Flow) (i : Z)
    (p : StepPtr) (c1 c2 : Ascii.ascii) :
  size f ≤ SIZE_MAX → step_at f i = Returns p →
  is_yes c1 = false → is_yes c2 = false →
  startedCount (entry f p) < INT_MAX →
  ∃ f1,
    body (Reply c1 :: Reply c2 :: σ) f i = Returns (f1, size_t_dec i, σ) ∧
    delta f f1 p 1 0 0 0 ∧
    size_t_inc (size_t_dec i) = i ∧
    for_loop (S fuel) (Reply c1 :: Reply c2 :: σ) f i = for_loop fuel σ f1 i ∧
    (∀ σ0 f0, at_header σ0 f0 f i (Reply c1 :: Reply c2 :: σ) →
              at_header σ0 f0 f1 i σ) ∧
    step_at f1 i = Returns p ∧
    (∀ σ2 f2 i2 σ3, body σ2 f1 i = Returns (f2, i2, σ3) →
       startedCount (entry f2 p) = startedCount (entry f p) + 2).
Proof.
  intros Hsz Hp Hc1 Hc2 Hlt.
  destruct (bump_started_lt p f Hlt) as [f1 Hb]. exists f1.
  destruct (bump_delta _ _ _ _ _ _ _ _ incr_started (step_at_elem _ _ _ Hp) Hb)
    as [Hev Hd].
  pose proof (step_at_Returns _ _ _ Hp) as [Hr _].
  assert (Hbody : body (Reply c1 :: Reply c2 :: σ) f i = Returns (f1, size_t_dec i, σ)).
  { unfold body. rewrite Hp. simpl. rewrite Hb. simpl. by rewrite Hc1, Hc2. }
  assert (Hback : size_t_inc (size_t_dec i) = i) by (apply size_t_inc_dec; lia).
  split_and!; auto.
  - rewrite for_loop_S. destruct Hr as [_ Hr]. apply Z.ltb_lt in Hr.
    by rewrite Hr, Hbody, Returns_bind, Hback.
  - intros σ0 f0 Hat.
    pose proof (at_next _ _ _ _ _ _ _ _ Hat ltac:(lia) Hbody) as Hn.
    by rewrite Hback in Hn.
  - by rewrite (step_at_evolves _ _ _ Hev).
  - intros σ2 f2 i2 σ3 H2.
    apply body_spec in H2 as (p' & dc & dk & de & Hp' & _ & Hd' & _).
    rewrite (step_at_evolves _ _ _ Hev), Hp in Hp'. inversion Hp'; subst p'.
    destruct Hd as (Hs & _). destruct Hd' as (Hs' & _). lia.
Qed.

(** C5, as the claim has it, fails at the first step: answered no and no at
    index 0 of a flow of one step, the turn leaves the index at
    2^64 - 1, outside the range of the steps. *)
Lemma first_step_retry_wraps :
  let f := addStep 1%N (Flow_new "demo" 0) in
  ∃ f1 i', body [Reply "n"%char; Reply "n"%char] f 0 = Returns (f1, i', []) ∧
           i' = 18446744073709551615 ∧ ¬ (i' < size f) ∧ ¬ (i' ≤ 0).
Proof.
  simpl. eexists _, _. split; [vm_compute; reflexivity|].
  split; [reflexivity|]. unfold size. simpl. lia.
Qed.

(** ** The analytics report *)

(** On every flow the program can hold the accumulator is zero, so the
    report shows either "N/A" or an average of zero. *)
Lemma avgErrorsPerFlow_reachable f :
  reachable f →
  avgErrorsPerFlow f = None ∨ ∃ q, avgErrorsPerFlow f = Some q ∧ (q == 0)%Q.
Proof.
  intros Hr. unfold avgErrorsPerFlow. rewrite (reachable_total _ Hr).
  destruct (flowCompletedCount f >? 0); [right | by left].
  eexists. split; [reflexivity|]. unfold Qdiv. apply Qmult_0_l.
Qed.

(** C4, the code at the spec's own example: two completed runs of one
    flow, the first with 3 errors and the second with 1.  The step has
    counted 4 errors and the flow 2 completions, yet the report's average is
    0 and not 2: [run] never adds to [totalErrorsAcrossFlows]. *)
Theorem avgErrorsPerFlow_two_runs :
  ∃ fa fb q,
    run three_errors two_runs_flow = Returns (fa, []) ∧
    errorCount (entry fa 1%N) = 3 ∧
    run one_error fa = Returns (fb, []) ∧
    errorCount (entry fb 1%N) = 4 ∧
    flowCompletedCount fb = 2 ∧
    totalErrorsAcrossFlows fb = 0 ∧
    avgErrorsPerFlow fb = Some q ∧ (q == 0)%Q ∧ ¬ (q == 2)%Q.
Proof.
  eexists _, _, _. split; [vm_compute; reflexivity|].
  split; [vm_compute; reflexivity|].
  split; [vm_compute; reflexivity|].
  split; [vm_compute; reflexivity|].
  split; [vm_compute; reflexivity|].
  split; [vm_compute; reflexivity|].
  split; [vm_compute; reflexivity|].
  split; [reflexivity|]. intros H. discriminate H.
Qed.

(** ** The extension test *)

Lemma last_index_bound ch s : ∀ k found pos,
  last_index ch s k found = Some pos →
  found = Some pos ∨ (k ≤ pos < k + String.length s)%nat.
Proof.
  induction s as [|c s IH]; intros k found pos H; simpl in *; [by left|].
  apply IH in H as [H|H]; [|right; lia].
  destruct (Ascii.eqb c ch); [|by left].
  inversion H; subst. right. lia.
Qed.

Lemma string_drop_0 s : string_drop 0 s = s.
Proof. by destruct s. Qed.

(** [last_index] finds the dot after which no dot follows. *)
Lemma last_index_spec s : ∀ k found,
  (has_dot s = false ∧ last_index "." s k found = found) ∨
  (∃ stem ext, s = stem +:+ "." +:+ ext ∧ has_dot ext = false ∧
               last_index "." s k found = Some (k + String.length stem)%nat).
Proof.
  induction s as [|c s IH]; intros k found; simpl; [by left|].
  destruct (IH (S k) (if Ascii.eqb c "." then Some k else found))
    as [[Hno Hlast]|(stem & ext & -> & Hno & Hlast)].
  - destruct (Ascii.eqb_spec c ".") as [->|Hc].
    + right. exists EmptyString, s. simpl. rewrite Hlast.
      split_and!; try done. f_equal. lia.
    + left. simpl. by rewrite Hlast.
  - right. exists (String c stem), ext. simpl. rewrite Hlast.
    split_and!; try done. f_equal. lia.
Qed.

(** The extension as defined is what follows the last dot, and a path has
    none exactly when it has no dot. *)
Lemma extension_Some path ext :
  extension path = Some ext →
  ∃ stem, path = stem +:+ "." +:+ ext ∧ has_dot ext = false.
Proof.
  unfold extension.
  destruct (last_index_spec path 0 None) as [[_ ->]|(stem & ext' & -> & Hno & ->)];
    [discriminate|].
  intros Hext. injection Hext as Hdrop. exists stem.
  assert (Hd : ∀ t, string_drop (S (String.length t)) (t +:+ "." +:+ ext') = ext').
  { intros t. induction t as [|c t IH]; simpl; [apply string_drop_0 | exact IH]. }
  pose proof (Hd stem) as Hd'. simpl in Hdrop, Hd'. rewrite Hd' in Hdrop. by subst.
Qed.

Lemma extension_None path : extension path = None ↔ has_dot path = false.
Proof.
  unfold extension.
  destruct (last_index_spec path 0 None) as [[Hno ->]|(stem & ext' & -> & Hno & ->)].
  - done.
  - split; [discriminate|]. intros Hdot. exfalso. revert Hdot. clear.
    induction stem as [|c stem IH]; simpl; [discriminate|].
    destruct (Ascii.eqb c "."); simpl; [discriminate | exact IH].
Qed.

(** What the test of the code decides: the extension as the spec means it,
    or the whole path when the path has no dot. *)
Lemma extension_is_spec path ext :
  Z.of_nat (String.length path) < SIZE_MAX →
  ∃ b, extension_is path ext = Returns b ∧
       (b = true ↔ has_extension path ext ∨ (extension path = None ∧ path = ext)).
Proof.
  intros Hlen. unfold extension_is, substr, find_last_of, has_extension, extension.
  destruct (last_index "." path 0 None) as [pos|] eqn:E.
  - apply last_index_bound in E as [E|E]; [discriminate|].
    rewrite size_t_inc_next by lia.
    destruct (Z.of_nat pos + 1 <=? Z.of_nat (String.length path)) eqn:E2;
      [|apply Z.leb_gt in E2; lia].
    replace (Z.to_nat (Z.of_nat pos + 1)) with (S pos) by lia.
    rewrite Returns_bind. eexists. split; [reflexivity|].
    rewrite String.eqb_eq. split.
    + intros ->. by left.
    + intros [H|[H _]]; [by inversion H | discriminate].
  - change (size_t_inc npos) with 0.
    destruct (0 <=? Z.of_nat (String.length path)) eqn:E2; [|apply Z.leb_gt in E2; lia].
    rewrite Returns_bind. eexists. split; [reflexivity|].
    change (Z.to_nat 0) with 0%nat. rewrite string_drop_0, String.eqb_eq. split.
    + intros ->. by right.
    + intros [H|[_ H]]; [discriminate | done].
Qed.

(** The two input steps end as the script of a run expects: they return
    or throw [FlowExecutionException]. *)
Lemma TextInputStep_execute_event fs self :
  Z.of_nat (String.length (TextInputStep.textInput self)) < SIZE_MAX →
  is_Some (exec_result_of (TextInputStep.execute fs self).2).
Proof.
  intros Hlen. unfold TextInputStep.execute.
  destruct (extension_is_spec _ "txt" Hlen) as (b & -> & _).
  destruct b; [destruct (fs _)|]; simpl; eauto.
Qed.

Lemma CSVInputStep_execute_event fs self :
  Z.of_nat (String.length (CSVInputStep.csvFilePath self)) < SIZE_MAX →
  is_Some (exec_result_of (CSVInputStep.execute fs self).2).
Proof.
  intros Hlen. unfold CSVInputStep.execute.
  destruct (extension_is_spec _ "csv" Hlen) as (b & -> & _).
  destruct b; [destruct (fs _)|]; simpl; eauto.
Qed.

(** C8, the code at a path without a dot.  The paths ["txt"] and ["csv"]
    have no extension, yet [find_last_of] yields [npos], [npos + 1] wraps
    to 0 and the test compares the whole path: [TextInputStep] opens the
    file named ["txt"] instead of printing the text, and [CSVInputStep]
    reads the file named ["csv"], or reports that it cannot open it,
    instead of reporting an invalid file type. *)
Theorem extension_test_without_dot :
  extension "txt" = None ∧ extension "csv" = None ∧
  TextInputStep.execute (only_file "txt" "hello")
      (TextInputStep.mk "Enter some text:" "txt")
    = ([Cout "Text Input (from file): hello"], Returns ()) ∧
  TextInputStep.execute no_files (TextInputStep.mk "Enter some text:" "txt")
    = ([Cerr "Error: Unable to open text file 'txt'"],
       Throws (FlowExecutionException "TextInputStep")) ∧
  CSVInputStep.execute (only_file "csv" ("a,b" +:+ String "010" "c,d"))
      (CSVInputStep.mk "Enter CSV file path:" "csv")
    = ([Cout "CSV Input: a,b"; Cout "CSV Input: c,d"], Returns ()) ∧
  CSVInputStep.execute no_files (CSVInputStep.mk "Enter CSV file path:" "csv")
    = ([Cerr "Error: Unable to open CSV file 'csv'"],
       Throws (FlowExecutionException "CSVInputStep")).
Proof. repeat split; vm_compute; reflexivity. Qed.

(** ** The fold of [CalculusStep] *)

Section CalculusStep_facts.

Context {T : Type} `{Numeric T}.
Import CalculusStep.
Implicit Types self : t (T := T).

Lemma folded_fold_from self : folded self = fold_from self 1.
Proof.
  unfold folded, fold_from. f_equal. lia.
Qed.

Lemma fold_from_done self i :
  (i <? steps self) && (size_t_of_int i <? Z.of_nat (length (inputValues self))) = false →
  0 ≤ i ≤ SIZE_MAX → fold_from self i = [].
Proof.
  intros Hc Hi. unfold fold_from.
  replace (Z.to_nat _) with 0%nat; [done|].
  unfold size_t_of_int in Hc. rewrite Z.mod_small in Hc by lia.
  apply andb_false_iff in Hc as [Hc|Hc]; apply Z.ltb_ge in Hc; lia.
Qed.

Lemma fold_from_next self i :
  (i <? steps self) && (size_t_of_int i <? Z.of_nat (length (inputValues self))) = true →
  0 ≤ i ≤ SIZE_MAX →
  ∃ x, inputValues self !! Z.to_nat i = Some x ∧
       fold_from self i = x :: fold_from self (i + 1).
Proof.
  intros Hc Hi.
  unfold size_t_of_int in Hc. rewrite Z.mod_small in Hc by lia.
  apply andb_true_iff in Hc as [Hc1 Hc2]. apply Z.ltb_lt in Hc1, Hc2.
  destruct (inputValues self !! Z.to_nat i) as [x|] eqn:Hx.
  2:{ apply lookup_ge_None in Hx. lia. }
  exists x. split; [done|]. unfold fold_from.
  rewrite (drop_S _ x (Z.to_nat i)) by done.
  replace (Z.to_nat (Z.min (steps self) (Z.of_nat (length (inputValues self))) - i))
    with (S (Z.to_nat (Z.min (steps self) (Z.of_nat (length (inputValues self))) - (i + 1))))
    by lia.
  replace (Z.to_nat (i + 1)) with (S (Z.to_nat i)) by lia. reflexivity.
Qed.

(** A turn of the loop: what holds of the rest of the loop holds of the
    loop from this turn on. *)
Ltac rest_of_loop IH :=
  match goal with
  | |- context [loop _ _ _ ?v] => specialize (IH v ltac:(lia) ltac:(lia))
  end;
  destruct (loop _ _ _ _) as [[r|m]| | | |]; try done;
  try (destruct IH as (-> & Hz & Hf); split_and!; [done | done | by auto]);
  try (destruct IH as [Ha Hf]; split; by auto).

(** A turn under an arithmetic operation: the assignment first. *)
Ltac checked_op IH :=
  unfold assigned; destruct (in_range _) eqn:Hr; simpl; [rest_of_loop IH | done].

(** The loop invariant: every way in which the loop from index [i], with
    [result] in hand, can end.  It ends by its condition with the fold of
    what is left, having met no zero divisor and no overflow; or by the
    [return] at a zero divisor; or in an overflow of its arithmetic. *)
Lemma loop_ends self g : binop (operation self) = Some g →
  Z.of_nat (length (inputValues self)) ≤ SIZE_MAX →
  ∀ fuel i result,
    0 ≤ i ≤ SIZE_MAX → (length (inputValues self) < fuel + Z.to_nat i)%nat →
    match loop self fuel i result with
    | Returns (Finished r) =>
        r = foldl g result (fold_from self i) ∧
        String.eqb (operation self) "/" && existsb is_zero (fold_from self i) = false ∧
        (arithmetic (operation self) = true →
         in_range_fold g result (fold_from self i) = true)
    | Returns (Returned message) =>
        message = "Error: Division by zero in CalculusStep." ∧
        String.eqb (operation self) "/" && existsb is_zero (fold_from self i) = true
    | Undefined =>
        arithmetic (operation self) = true ∧
        in_range_fold g result (fold_from self i) = false
    | _ => False
    end.
Proof.
  intros Hop Hsz.
  induction fuel as [|fuel IH]; intros i result Hi Hfuel.
  - simpl.
    destruct ((i <? steps self) && (size_t_of_int i <? Z.of_nat (length (inputValues self))))
      eqn:Hc.
    + unfold size_t_of_int in Hc. apply andb_true_iff in Hc as [_ Hc].
      apply Z.ltb_lt in Hc. rewrite Z.mod_small in Hc by lia. lia.
    + rewrite fold_from_done; [|done|lia]. simpl. by rewrite andb_false_r.
  - simpl.
    destruct ((i <? steps self) && (size_t_of_int i <? Z.of_nat (length (inputValues self))))
      eqn:Hc.
    2:{ rewrite fold_from_done; [|done|lia]. simpl. by rewrite andb_false_r. }
    destruct (fold_from_next self i Hc Hi) as (x & Hx & Hnext).
    rewrite Hx, Hnext. simpl.
    assert (Hlt : (Z.to_nat i < length (inputValues self))%nat)
      by by eapply lookup_lt_Some.
    assert (Hfuel' : (length (inputValues self) < fuel + Z.to_nat (i + 1))%nat) by lia.
    assert (Hi' : 0 ≤ i + 1 ≤ SIZE_MAX) by lia.
    specialize (IH (i + 1)).
    unfold binop in Hop. unfold arithmetic in *.
    destruct (String.eqb (operation self) "+") eqn:E.
    { inversion Hop; subst g. apply String.eqb_eq in E. rewrite E in *.
      simpl in *. checked_op IH. }
    destruct (String.eqb (operation self) "-") eqn:E0.
    { inversion Hop; subst g. apply String.eqb_eq in E0. rewrite E0 in *.
      simpl in *. checked_op IH. }
    destruct (String.eqb (operation self) "*") eqn:E1.
    { inversion Hop; subst g. apply String.eqb_eq in E1. rewrite E1 in *.
      simpl in *. checked_op IH. }
    destruct (String.eqb (operation self) "/") eqn:E2.
    { inversion Hop; subst g. apply String.eqb_eq in E2. rewrite E2 in *.
      simpl in *. destruct (is_zero x); simpl; [done|]. checked_op IH. }
    destruct (String.eqb (operation self) "min") eqn:E3.
    { inversion Hop; subst g. apply String.eqb_eq in E3. rewrite E3 in *.
      simpl in *. rest_of_loop IH. }
    destruct (String.eqb (operation self) "max") eqn:E4.
    { inversion Hop; subst g. apply String.eqb_eq in E4. rewrite E4 in *.
      simpl in *. rest_of_loop IH. }
    discriminate.
Qed.

(** Without an overflow the loop folds what is left, unless it meets a
    zero divisor. *)
Lemma loop_folds self g : binop (operation self) = Some g →
  Z.of_nat (length (inputValues self)) ≤ SIZE_MAX →
  ∀ fuel i result,
    0 ≤ i ≤ SIZE_MAX → (length (inputValues self) < fuel + Z.to_nat i)%nat →
    (arithmetic (operation self) = true →
     in_range_fold g result (fold_from self i) = true) →
    loop self fuel i result =
      if String.eqb (operation self) "/" && existsb is_zero (fold_from self i)
      then Returns (Returned "Error: Division by zero in CalculusStep.")
      else Returns (Finished (foldl g result (fold_from self i))).
Proof.
  intros Hop Hsz fuel i result Hi Hfuel Hrange.
  pose proof (loop_ends self g Hop Hsz fuel i result Hi Hfuel) as Hends.
  destruct (loop self fuel i result) as [[r|m]| | | |]; try done.
  - destruct Hends as (-> & -> & _). done.
  - destruct Hends as (-> & ->). done.
  - destruct Hends as [Ha Hf]. rewrite (Hrange Ha) in Hf. discriminate.
Qed.

(** The loop and [execute()] throw nothing. *)
Lemma loop_no_throw self : ∀ fuel i result e, loop self fuel i result ≠ Throws e.
Proof.
  assert (Hturn : ∀ fuel i v e,
            (∀ i result e, loop self fuel i result ≠ Throws e) →
            assigned v ≫= (λ result', loop self fuel i result') ≠ Throws e).
  { intros fuel i v e IH. unfold assigned. destruct (in_range v); simpl; [apply IH | done]. }
  induction fuel as [|fuel IH]; intros i result e; simpl;
    destruct (_ && _); try discriminate.
  destruct (inputValues self !! Z.to_nat i); [|discriminate].
  repeat (destruct (String.eqb _ _); [try apply IH; try by apply Hturn|]); try discriminate.
  destruct (negb _); [by apply Hturn | discriminate].
Qed.

Lemma execute_no_throw self e : (execute self).2 ≠ Throws e.
Proof.
  unfold execute.
  destruct (compute self) as [[r|m]|e'| | |] eqn:Hc; simpl; try discriminate.
  unfold compute in Hc. destruct (_ || _); [discriminate|].
  destruct (inputValues self !! 0%nat); [|discriminate].
  by apply loop_no_throw in Hc.
Qed.

(** The computation with a valid configuration and one of the six
    operations, in its three ways of ending. *)
Lemma compute_ends self g :
  1 ≤ steps self → (2 ≤ length (inputValues self))%nat →
  Z.of_nat (length (inputValues self)) ≤ SIZE_MAX →
  binop (operation self) = Some g →
  ∃ first rest,
    inputValues self = first :: rest ∧
    folded self = take (Z.to_nat (Z.min (steps self - 1)
                                        (Z.of_nat (length (inputValues self)) - 1))) rest ∧
    (∀ result, compute self = Returns (Finished result) →
               result = foldl g first (folded self)) ∧
    (divides_by_zero self = false →
     compute self = if overflows self then Undefined
                    else Returns (Finished (foldl g first (folded self)))).
Proof.
  intros Hs Hn Hsz Hop.
  destruct (inputValues self) as [|first rest] eqn:Hin; [simpl in Hn; lia|].
  exists first, rest.
  assert (Hloop : compute self = loop self (length (inputValues self)) 1 first).
  { unfold compute. rewrite Hin.
    destruct ((steps self <=? 0) || (Z.of_nat (length (first :: rest)) <? 2)) eqn:Hcfg.
    { apply orb_true_iff in Hcfg as [Hc|Hc];
        [apply Z.leb_le in Hc | apply Z.ltb_lt in Hc]; simpl in *; lia. }
    done. }
  pose proof (loop_ends self g Hop ltac:(by rewrite Hin) (length (inputValues self)) 1 first
                ltac:(unfold SIZE_MAX; lia) ltac:(rewrite Hin; simpl; lia)) as Hends.
  rewrite <- Hloop, <- folded_fold_from in Hends.
  unfold divides_by_zero, overflows. rewrite Hop, Hin, <- Hin.
  split_and!; [done | | |].
  - unfold folded. rewrite Hin. simpl drop. by rewrite drop_0.
  - intros result Hr. rewrite Hr in Hends. by destruct Hends as [-> _].
  - intros Hz. destruct (compute self) as [[r|m]| | | |]; try done.
    + destruct Hends as (-> & _ & Hf).
      destruct (arithmetic (operation self)); [by rewrite Hf|done].
    + destruct Hends as [_ Hz']. rewrite Hz in Hz'. discriminate.
    + destruct Hends as [-> ->]. done.
Qed.

(** C6.  With [steps ≥ 1], at least two input values and one of the six
    operations, [execute()] folds the operation from the first input value
    over the [min(steps - 1, count - 1)] values that follow it, in their
    order, and prints the result; under ["/"] it does so unless one of these
    values is zero, and under the four arithmetic operations unless a
    partial result overflows [T]: then the call is undefined. *)
Theorem execute_folds (self : t) (g : T → T → T) :
  1 ≤ steps self → (2 ≤ length (inputValues self))%nat →
  Z.of_nat (length (inputValues self)) ≤ SIZE_MAX →
  binop (operation self) = Some g →
  ∃ first rest,
    inputValues self = first :: rest ∧
    folded self = take (Z.to_nat (Z.min (steps self - 1)
                                        (Z.of_nat (length (inputValues self)) - 1))) rest ∧
    length (folded self) =
      Z.to_nat (Z.min (steps self - 1) (Z.of_nat (length (inputValues self)) - 1)) ∧
    (∀ result, compute self = Returns (Finished result) →
               result = foldl g first (folded self)) ∧
    (divides_by_zero self = false → overflows self = false →
     compute self = Returns (Finished (foldl g first (folded self))) ∧
     execute self =
       ([Cout ("Calculus Result: " +:+ show (foldl g first (folded self)))], Returns ())) ∧
    (divides_by_zero self = false → overflows self = true →
     compute self = Undefined ∧ (execute self).2 = Undefined).
Proof.
  intros Hs Hn Hsz Hop.
  destruct (compute_ends self g Hs Hn Hsz Hop) as (first & rest & Hin & Hfolded & Hfin & Hc).
  exists first, rest. split_and!; try done.
  - rewrite Hfolded, length_take. rewrite Hin. simpl length. lia.
  - intros Hz Ho. rewrite Ho in Hc. specialize (Hc Hz). split; [done|].
    unfold execute. by rewrite Hc.
  - intros Hz Ho. rewrite Ho in Hc. specialize (Hc Hz). split; [done|].
    unfold execute. by rewrite Hc.
Qed.

End CalculusStep_facts.

(** The step that [main] adds to every flow: [CalculusStep<int>(3, {2, 3, 4}, "+")]. *)
Example execute_main_step :
  CalculusStep.execute (CalculusStep.mk 3 [2; 3; 4] "+")
  = ([Cout "Calculus Result: 9"], Returns ()).
Proof. vm_compute. reflexivity. Qed.

(** [CalculusStep<int>(2, {INT_MIN, -1}, "/")]: the quotient 2^31 is no
    [int], and the call is undefined. *)
Example execute_INT_MIN_by_minus_one :
  CalculusStep.overflows (CalculusStep.mk 2 [INT_MIN; -1] "/") = true ∧
  (CalculusStep.execute (CalculusStep.mk 2 [INT_MIN; -1] "/")).2 = Undefined.
Proof. split; vm_compute; reflexivity. Qed.

(** C7, the code at the three configurations the claim names: a zero
    divisor, a single input value, and [steps = 0].  Each time [execute()]
    writes its message to [cerr] and returns; it throws no
    [FlowExecutionException], so [run] goes on to ask whether the step is
    completed. *)
Theorem execute_returns_on_errors :
  CalculusStep.execute (CalculusStep.mk 3 [6; 0] "/")
    = ([Cerr "Error: Division by zero in CalculusStep."], Returns ()) ∧
  CalculusStep.execute (CalculusStep.mk 3 [5] "+")
    = ([Cerr "Error: Invalid configuration for CalculusStep."], Returns ()) ∧
  CalculusStep.execute (CalculusStep.mk 0 [2; 3; 4] "+")
    = ([Cerr "Error: Invalid configuration for CalculusStep."], Returns ()) ∧
  (∀ (self : CalculusStep.t (T := Z)) name,
     (CalculusStep.execute self).2 ≠ Throws (FlowExecutionException name)).
Proof.
  split; [|split; [|split]].
  - vm_compute. reflexivity.
  - vm_compute. reflexivity.
  - vm_compute. reflexivity.
  - intros self name. apply execute_no_throw.
Qed.

(** ** The registry *)

(** [find_if] stops at the first flow of the name, or at the end. *)
Lemma find_if_found flowName (flows : list Flow) :
  flowName ∈ System.printFlows flows →
  ∃ before flow after,
    flows = before ++ flow :: after ∧ getName flow = flowName ∧
    (flowName ∉ System.printFlows before) ∧
    System.find_if (λ flow, String.eqb (getName flow) flowName) flows = length before.
Proof.
  induction flows as [|f flows IH]; intros Hin; simpl in *.
  - by apply elem_of_nil in Hin.
  - destruct (String.eqb_spec (getName f) flowName) as [E|E].
    + exists [], f, flows. split_and!; auto. apply not_elem_of_nil.
    + apply elem_of_cons in Hin as [Hin|Hin]; [congruence|].
      destruct (IH Hin) as (before & flow & after & -> & Hn & Hnot & Hfind).
      exists (f :: before), flow, after. split_and!; auto.
      * simpl. intros [?|?]%elem_of_cons; [congruence | done].
      * simpl. by rewrite Hfind.
Qed.

Lemma find_if_missing flowName (flows : list Flow) :
  flowName ∉ System.printFlows flows →
  System.find_if (λ flow, String.eqb (getName flow) flowName) flows = length flows.
Proof.
  induction flows as [|f flows IH]; intros Hnot; simpl in *; [done|].
  apply not_elem_of_cons in Hnot as [Hne Hnot].
  destruct (String.eqb_spec (getName f) flowName) as [E|E]; [congruence|].
  by rewrite IH.
Qed.

(** C9.  [deleteFlow(name)] on a registry that holds a flow of that name
    returns and takes out one flow, the first of that name, leaving the
    others in their order; on a registry without such a flow it throws
    [FlowNotFoundException(name)] and leaves the registry, and so the list
    of names, as it was. *)
Theorem deleteFlow_spec (flowName : string) (flows : System.t) :
  (flowName ∈ System.printFlows flows →
   ∃ before flow after,
     flows = before ++ flow :: after ∧ getName flow = flowName ∧
     (flowName ∉ System.printFlows before) ∧
     System.deleteFlow flowName flows = (Returns (), before ++ after)) ∧
  (flowName ∉ System.printFlows flows →
   System.deleteFlow flowName flows = (Throws (FlowNotFoundException flowName), flows) ∧
   System.printFlows (System.deleteFlow flowName flows).2 = System.printFlows flows).
Proof.
  split.
  - intros Hin.
    destruct (find_if_found _ _ Hin) as (before & flow & after & -> & Hn & Hnot & Hfind).
    exists before, flow, after. split_and!; auto.
    unfold System.deleteFlow. rewrite Hfind.
    destruct (length before <? length (before ++ flow :: after))%nat eqn:E.
    + f_equal. clear. induction before as [|b before IH]; simpl; [done|]. by f_equal.
    + apply Nat.ltb_ge in E. rewrite length_app in E. simpl in E. lia.
  - intros Hnot. unfold System.deleteFlow. rewrite (find_if_missing _ _ Hnot).
    rewrite Nat.ltb_irrefl. done.
Qed.

(** * The theorems at work on a flow of two steps *)

(** The demo flow is built by the constructor and two calls of [addStep]. *)
Lemma demo_flow_reachable : reachable demo_flow.
Proof.
  unfold demo_flow.
  apply reach_addStep; [apply reach_addStep; [apply reach_new|] |];
    unfold size, SIZE_MAX; simpl; lia.
Defined.

(** The run of the demo flow under the demo script returns, with both flow
    counters at one. *)
Lemma run_returns_normally_witness :
  run demo_script demo_flow ≠ Blocked ∧ run demo_script demo_flow ≠ Undefined ∧
  ∃ f' σ', run demo_script demo_flow = Returns (f', σ') ∧
           flowStartedCount f' = 1 ∧ flowCompletedCount f' = 1 ∧
           resolved f' 1%N = 1 ∧ resolved f' 2%N = 1.
Proof.
  assert (Hb : run demo_script demo_flow ≠ Blocked) by (vm_compute; discriminate).
  assert (Hu : run demo_script demo_flow ≠ Undefined) by (vm_compute; discriminate).
  destruct (run_returns_normally demo_script demo_flow Hb Hu)
    as (_ & f0 & f1 & f' & σ' & Hr & _ & _ & _ & _ & _ & Hloop & _ & _ & _ & He & Hs & Hc).
  assert (Hsz : size demo_flow ≤ SIZE_MAX) by (vm_compute; discriminate).
  destruct (Hloop Hsz) as (_ & _ & Hres).
  split; [exact Hb|]. split; [exact Hu|].
  exists f', σ'. split; [exact Hr|]. split; [exact Hs|]. split; [exact Hc|].
  unfold resolved in *. rewrite !He. split; [exact (Hres 1%N) | exact (Hres 2%N)].
Defined.

(** Both steps of the demo flow are started, and none is completed more
    often than started. *)
Lemma run_counters_witness :
  reachable demo_flow ∧
  ∃ f' σ', run demo_script demo_flow = Returns (f', σ') ∧
    (∀ p, p ∈ steps demo_flow →
          startedCount (entry demo_flow p) + 1 ≤ startedCount (entry f' p)) ∧
    (∀ p, p ∈ steps f' → completedCount (entry f' p) ≤ startedCount (entry f' p)).
Proof.
  split; [exact demo_flow_reachable|].
  destruct (run demo_script demo_flow) as [[f' σ']|e| | |] eqn:Hrun;
    try (vm_compute in Hrun; discriminate Hrun).
  exists f', σ'. split; [reflexivity|].
  destruct (run_counters demo_script σ' demo_flow f' demo_flow_reachable Hrun)
    as (Hs & Hc & _ & _).
  split; [exact Hs | exact Hc].
Defined.

(** The run leaves the name, the timestamp, the steps and the keys of
    [analytics] of the demo flow alone. *)
Lemma run_frame_witness :
  reachable demo_flow ∧
  ∃ f' σ', run demo_script demo_flow = Returns (f', σ') ∧
    name f' = "demo" ∧ timestamp f' = 0 ∧ steps f' = [1%N; 2%N] ∧
    dom (analytics f') = dom (analytics demo_flow).
Proof.
  split; [exact demo_flow_reachable|].
  destruct (run demo_script demo_flow) as [[f' σ']|e| | |] eqn:Hrun;
    try (vm_compute in Hrun; discriminate Hrun).
  exists f', σ'. split; [reflexivity|].
  exact (run_frame demo_script σ' demo_flow f' demo_flow_reachable Hrun).
Defined.

(** After the first step is skipped the run stands at the second step with
    the failing part of the script ahead. *)
Lemma demo_at_second_step :
  ∃ f1, at_header demo_script demo_flow f1 1 fails_twice.
Proof.
  eexists. change 1 with (size_t_inc 0).
  eapply at_next;
    [apply at_first; vm_compute; reflexivity
    | vm_compute; reflexivity
    | vm_compute; reflexivity].
Defined.

(** The second step of the demo flow ends the run with two errors and one
    completion. *)
Lemma run_fails_twice_witness :
  reachable demo_flow ∧ steps demo_flow !! Z.to_nat 1 = Some 2%N ∧
  (∀ j, steps demo_flow !! j = Some 2%N → j = Z.to_nat 1) ∧
  (∃ f1, at_header demo_script demo_flow f1 1 fails_twice) ∧
  ∃ f' σ', run demo_script demo_flow = Returns (f', σ') ∧
    errorCount (entry f' 2%N) = 2 ∧ completedCount (entry f' 2%N) = 1 ∧
    1 ≤ startedCount (entry f' 2%N).
Proof.
  assert (Huniq : ∀ j, steps demo_flow !! j = Some 2%N → j = Z.to_nat 1).
  { intros [|[|j]] Hj; [discriminate Hj | reflexivity | discriminate Hj]. }
  destruct demo_at_second_step as [f1 Hat].
  split; [exact demo_flow_reachable|]. split; [reflexivity|].
  split; [exact Huniq|]. split; [by exists f1|].
  destruct (run demo_script demo_flow) as [[f' σ']|e| | |] eqn:Hrun;
    try (vm_compute in Hrun; discriminate Hrun).
  exists f', σ'. split; [reflexivity|].
  destruct (run_fails_twice demo_script σ' [] demo_flow f1 f' 1 2%N
              "y"%char "y"%char "CSVInputStep" "CSVInputStep"
              demo_flow_reachable ltac:(lia) eq_refl Huniq eq_refl eq_refl Hat Hrun)
    as (_ & Hzero & _).
  exact (Hzero eq_refl eq_refl).
Defined.

(** Answered no and no; the first step of the demo flow is presented
    again. *)
Lemma run_retries_same_step_witness :
  size demo_flow ≤ SIZE_MAX ∧ step_at demo_flow 0 = Returns 1%N ∧
  is_yes "n"%char = false ∧ startedCount (entry demo_flow 1%N) < INT_MAX ∧
  ∃ f1, body [Reply "n"%char; Reply "n"%char; Reply "y"%char] demo_flow 0
          = Returns (f1, size_t_dec 0, [Reply "y"%char]) ∧
        size_t_inc (size_t_dec 0) = 0 ∧
        startedCount (entry f1 1%N) = startedCount (entry demo_flow 1%N) + 1.
Proof.
  assert (Hsz : size demo_flow ≤ SIZE_MAX) by (vm_compute; discriminate).
  assert (Hlt : startedCount (entry demo_flow 1%N) < INT_MAX) by (vm_compute; reflexivity).
  destruct (run_retries_same_step 3 [Reply "y"%char] demo_flow 0 1%N "n"%char "n"%char
              Hsz eq_refl eq_refl eq_refl Hlt)
    as (f1 & Hbody & Hd & Hback & _).
  split; [exact Hsz|]. split; [reflexivity|]. split; [reflexivity|].
  split; [exact Hlt|]. exists f1.
  split; [exact Hbody|]. split; [exact Hback|]. exact (proj1 Hd).
Defined.

(** The step that [main] builds adds 3 and 4 to 2, within the range of
    [int]. *)
Lemma execute_folds_witness :
  let self := CalculusStep.mk 3 [2; 3; 4] "+" in
  1 ≤ CalculusStep.steps self ∧ (2 ≤ length (CalculusStep.inputValues self))%nat ∧
  CalculusStep.binop "+" = Some add ∧
  CalculusStep.folded self = [3; 4] ∧
  CalculusStep.divides_by_zero self = false ∧ CalculusStep.overflows self = false ∧
  CalculusStep.compute self = Returns (CalculusStep.Finished (foldl add 2 [3; 4])).
Proof.
  intros self.
  assert (H1 : 1 ≤ CalculusStep.steps self) by (vm_compute; discriminate).
  assert (H2 : (2 ≤ length (CalculusStep.inputValues self))%nat) by (simpl; lia).
  assert (H3 : Z.of_nat (length (CalculusStep.inputValues self)) ≤ SIZE_MAX)
    by (vm_compute; discriminate).
  destruct (execute_folds self add H1 H2 H3 eq_refl)
    as (first & rest & Hin & Hfolded & _ & _ & Hok & _).
  inversion Hin; subst first rest.
  split; [exact H1|]. split; [exact H2|]. split; [reflexivity|].
  split; [reflexivity|]. split; [reflexivity|]. split; [reflexivity|].
  exact (proj1 (Hok eq_refl eq_refl)).
Defined.

(** Deleting ["b"] takes the first of the two flows of that name; deleting
    ["c"] throws and changes nothing. *)
Lemma deleteFlow_spec_witness :
  "b" ∈ System.printFlows demo_registry ∧ ("c" ∉ System.printFlows demo_registry) ∧
  System.deleteFlow "b" demo_registry = (Returns (), [Flow_new "a" 0; Flow_new "b" 2]) ∧
  System.deleteFlow "c" demo_registry = (Throws (FlowNotFoundException "c"), demo_registry).
Proof.
  assert (Hb : "b" ∈ System.printFlows demo_registry).
  { apply list_elem_of_further, list_elem_of_here. }
  assert (Hc : "c" ∉ System.printFlows demo_registry).
  { intros Hin. repeat (apply elem_of_cons in Hin as [Hin|Hin]; [discriminate Hin|]).
    by apply elem_of_nil in Hin. }
  split; [exact Hb|]. split; [exact Hc|]. split.
  - destruct (proj1 (deleteFlow_spec "b" demo_registry) Hb)
      as (before & flow & after & _ & _ & _ & Hdel).
    rewrite Hdel. vm_compute in Hdel. by inversion Hdel.
  - exact (proj1 (proj2 (deleteFlow_spec "c" demo_registry) Hc)).
Defined.

(** * Further properties of the flow engine *)

(** ** [addStep] *)

(** [addStep] appends the step and gives it an entry; it resets no counter:
    every entry, also that of a step added before, reads as it did, and a
    step new to the flow starts from zero.  The name, the timestamp and the
    flow counters stay. *)
Theorem addStep_spec (step : StepPtr) (f : Flow) :
  steps (addStep step f) = steps f ++ [step] ∧
  size (addStep step f) = size f + 1 ∧
  dom (analytics (addStep step f)) = {[step]} ∪ dom (analytics f) ∧
  analytics (addStep step f) !! step = Some (entry f step) ∧
  (∀ q, entry (addStep step f) q = entry f q) ∧
  name (addStep step f) = name f ∧ timestamp (addStep step f) = timestamp f ∧
  flowStartedCount (addStep step f) = flowStartedCount f ∧
  flowCompletedCount (addStep step f) = flowCompletedCount f.
Proof.
  split_and!; try reflexivity.
  - apply size_addStep.
  - simpl. apply dom_insert_L.
  - simpl. apply lookup_insert_eq.
  - intros q. apply entry_addStep.
Qed.

(** ** A flow without steps *)

Lemma run_stepless σ f :
  steps f = [] → flowStartedCount f < INT_MAX → flowCompletedCount f < INT_MAX →
  run σ f =
    Returns (mkFlow (name f) [] (timestamp f) (analytics f)
                    (flowStartedCount f + 1) (flowCompletedCount f + 1)
                    (totalErrorsAcrossFlows f), σ).
Proof.
  intros Hsteps Hs Hc. unfold run, inc_flowStarted.
  rewrite (pre_increment_lt _ Hs), Returns_bind. cbn [mret outcome_ret].
  rewrite Returns_bind, for_loop_S. unfold size. simpl. rewrite Hsteps. simpl.
  unfold inc_flowCompleted. simpl. rewrite (pre_increment_lt _ Hc). reflexivity.
Qed.

(** The run of a flow without steps asks nothing and executes nothing: it
    returns with the script untouched and only the two flow counters
    raised. *)
Theorem run_without_steps (σ : list event) (f : Flow) :
  steps f = [] → flowStartedCount f < INT_MAX → flowCompletedCount f < INT_MAX →
  run σ f =
    Returns (mkFlow (name f) [] (timestamp f) (analytics f)
                    (flowStartedCount f + 1) (flowCompletedCount f + 1)
                    (totalErrorsAcrossFlows f), σ).
Proof. apply run_stepless. Qed.

Lemma run_without_steps_witness :
  run [Reply "y"%char] (Flow_new "empty" 0)
  = Returns (mkFlow "empty" [] 0 ∅ 1 1 0, [Reply "y"%char]).
Proof.
  apply (run_without_steps [Reply "y"%char] (Flow_new "empty" 0));
    [reflexivity | reflexivity | reflexivity].
Defined.

(** ** Invariants of the counters *)

Lemma body_settled σ f i f' i' σ' :
  body σ f i = Returns (f', i', σ') → settled f → settled f'.
Proof.
  intros H Hb q.
  apply body_spec in H as (p & dc & dk & de & _ & _ & Hd & _ & _ & _ & Hcase & _).
  destruct Hd as (Hs & Hc & Hk & _ & Hother). specialize (Hb q).
  destruct (decide (q = p)) as [->|Hne]; [|by rewrite (Hother q Hne)].
  destruct Hcase as [[_ ?]|(_ & ? & ? & _)]; lia.
Qed.

Lemma for_loop_settled fuel : ∀ σ f i f' σ',
  for_loop fuel σ f i = Returns (f', σ') → settled f → settled f'.
Proof.
  induction fuel as [|fuel IH]; intros σ f i f' σ' H Hb; simpl in H;
    destruct (i <? size f); try discriminate; try (by inversion H; subst).
  bind_inv H. destruct a as [[f1 i1] σ1].
  eapply IH; [exact H|]. by eapply body_settled.
Qed.

Lemma run_settled σ f f' σ' : run σ f = Returns (f', σ') → settled f → settled f'.
Proof.
  intros H Hb. apply run_Returns in H as (f0 & f1 & H0 & Hloop & H2).
  apply inc_flowStarted_Returns in H0. apply inc_flowCompleted_Returns in H2.
  assert (Hb0 : settled f0) by (intros q; subst f0; apply Hb).
  pose proof (for_loop_settled _ _ _ _ _ _ Hloop Hb0) as Hb1.
  intros q. subst f'. apply Hb1.
Qed.

Lemma reachable_is_settled f : reachable f → settled f.
Proof.
  induction 1 as [n now|f step Hr IH Hsz|f σ f' σ' Hr IH Hrun].
  - intros q. unfold entry. simpl. rewrite lookup_empty. simpl. lia.
  - intros q. rewrite entry_addStep. apply IH.
  - by eapply run_settled.
Qed.

Lemma reachable_flow_level f :
  reachable f → flowCompletedCount f = flowStartedCount f ∧ 0 ≤ flowStartedCount f.
Proof.
  induction 1 as [n now|f step Hr IH Hsz|f σ f' σ' Hr IH Hrun]; simpl.
  - lia.
  - exact IH.
  - apply run_spec in Hrun. destruct Hrun. lia.
Qed.

(** On every flow the program can hold, no step is completed and skipped
    more often, taken together, than it was started, and no counter of a
    step is negative. *)
Theorem reachable_settled (f : Flow) (p : StepPtr) :
  reachable f →
  completedCount (entry f p) + skippedCount (entry f p) ≤ startedCount (entry f p) ∧
  0 ≤ completedCount (entry f p) ∧ 0 ≤ skippedCount (entry f p) ∧
  0 ≤ errorCount (entry f p).
Proof.
  intros Hr. pose proof (reachable_is_settled f Hr p) as Hs.
  apply reachable_well_formed in Hr as [_ _ _ Hnn].
  destruct (Hnn p) as (_ & ? & ? & ?). simpl in *. split_and!; auto.
Qed.

(** [run] cannot be left half-way: on every flow the program can hold, the
    flow has been completed exactly as often as it has been started. *)
Theorem reachable_flow_counters (f : Flow) :
  reachable f →
  flowCompletedCount f = flowStartedCount f ∧ 0 ≤ flowStartedCount f.
Proof. apply reachable_flow_level. Qed.

(** ** What a run takes from its script *)

Lemma raises_app σ1 σ2 : raises (σ1 ++ σ2) = raises σ1 + raises σ2.
Proof.
  induction σ1 as [|[c|[|s]] σ1 IH]; simpl; lia.
Qed.

Lemma sum_errors_split (m : gmap N StepAnalytics) p :
  map_fold (λ _ a acc, errorCount a + acc) 0 m =
  errorCount (default StepAnalytics_init (m !! p)) +
  map_fold (λ _ a acc, errorCount a + acc) 0 (delete p m).
Proof.
  destruct (m !! p) as [a|] eqn:E; simpl.
  - apply (map_fold_delete_L (λ _ a acc, errorCount a + acc)); [|done].
    intros. lia.
  - by rewrite delete_id.
Qed.

Lemma bump_total inc ds dc dk de p f f' :
  increment inc ds dc dk de → bump inc p f = Returns f' →
  total_errors f' = total_errors f + de.
Proof.
  intros Hinc H. apply bump_Returns in H as (a' & Ha & ->).
  pose proof (increment_Returns _ _ _ _ _ _ _ Hinc Ha) as (_ & _ & _ & He).
  unfold total_errors. simpl.
  rewrite (sum_errors_split (<[p:=a']> (analytics f)) p),
          (sum_errors_split (analytics f) p).
  rewrite lookup_insert_eq, delete_insert_eq. simpl. unfold entry in He. lia.
Qed.

Lemma retry_loop_used_n n : ∀ σ f i f' σ',
  (length σ ≤ n)%nat → retry_loop σ f i = Returns (f', σ') →
  ∃ used, σ = used ++ σ' ∧ (2 ≤ length used)%nat ∧
          (∀ τ, retry_loop (used ++ τ) f i = Returns (f', τ)) ∧
          total_errors f' = total_errors f + raises used.
Proof.
  induction n as [|n IH]; intros σ f i f' σ' Hn H.
  - destruct σ; [discriminate | simpl in Hn; lia].
  - destruct σ as [|[c|[|s]] σ1]; try discriminate; simpl in H, Hn.
    + destruct σ1 as [|[c|r] σ2]; try discriminate.
      destruct (is_yes c) eqn:Hc.
      * bind_inv H. bind_inv H. inversion H; subst.
        exists [Exec Completes; Reply c]. split_and!; [done | simpl; lia | |].
        -- intros τ. simpl. by rewrite Hc, Ha, Returns_bind, Ha0.
        -- rewrite (bump_total _ _ _ _ _ _ _ _ incr_completed Ha0). simpl. lia.
      * apply IH in H; [|simpl in Hn; lia].
        destruct H as (used & -> & Hlen & Hrest & Htot).
        exists (Exec Completes :: Reply c :: used). split_and!; [done | simpl; lia | |].
        -- intros τ. simpl. rewrite Hc. apply Hrest.
        -- simpl. exact Htot.
    + bind_inv H. bind_inv H. rename a0 into f1.
      apply IH in H; [|lia].
      destruct H as (used & -> & Hlen & Hrest & Htot).
      exists (Exec (Raises s) :: used). split_and!; [done | simpl; lia | |].
      * intros τ. simpl. rewrite Ha, Returns_bind, Ha0, Returns_bind. apply Hrest.
      * rewrite Htot, (bump_total _ _ _ _ _ _ _ _ incr_error Ha0). simpl. lia.
Qed.

Lemma body_used σ f i f' i' σ' :
  body σ f i = Returns (f', i', σ') →
  ∃ used, σ = used ++ σ' ∧ (2 ≤ length used)%nat ∧
          (∀ τ, body (used ++ τ) f i = Returns (f', i', τ)) ∧
          total_errors f' = total_errors f + raises used.
Proof.
  unfold body, askUserToRunStep, askUserToSkipStep. intros H.
  bind_inv H. rename a into p. bind_inv H. rename a into f1.
  pose proof (bump_total _ _ _ _ _ _ _ _ incr_started Ha0) as Ht1.
  bind_inv H. destruct a as [run_it σ1].
  apply askUser_Returns in Ha1 as (c & -> & ->).
  destruct (is_yes c) eqn:Hc.
  - bind_inv H. destruct a as [f2 σ2]. inversion H; subst.
    apply (retry_loop_used_n (length σ1)) in Ha1 as (used & -> & Hlen & Hrest & Htot);
      [|done].
    exists (Reply c :: used). split_and!; [done | simpl; lia | |].
    + intros τ. rewrite Ha, Returns_bind, Ha0, Returns_bind. simpl.
      by rewrite Hc, Hrest.
    + simpl. lia.
  - bind_inv H. destruct a as [skip_it σ2].
    apply askUser_Returns in Ha1 as (c' & -> & ->).
    destruct (is_yes c') eqn:Hc'.
    + bind_inv H. bind_inv H. inversion H; subst.
      exists [Reply c; Reply c']. split_and!; [done | simpl; lia | |].
      * intros τ. rewrite Ha, Returns_bind, Ha0, Returns_bind. simpl.
        by rewrite Hc, Hc', Ha1, Returns_bind, Ha2.
      * rewrite (bump_total _ _ _ _ _ _ _ _ incr_skipped Ha2). simpl. lia.
    + inversion H; subst.
      exists [Reply c; Reply c']. split_and!; [done | simpl; lia | |].
      * intros τ. rewrite Ha, Returns_bind, Ha0, Returns_bind. simpl.
        by rewrite Hc, Hc'.
      * simpl. lia.
Qed.

Lemma for_loop_used fuel : ∀ σ f i f' σ',
  for_loop fuel σ f i = Returns (f', σ') →
  ∃ used, σ = used ++ σ' ∧
          (∀ τ, for_loop fuel (used ++ τ) f i = Returns (f', τ)) ∧
          total_errors f' = total_errors f + raises used.
Proof.
  induction fuel as [|fuel IH]; intros σ f i f' σ' H.
  - simpl in H. destruct (i <? size f) eqn:E; [discriminate|]. inversion H; subst.
    exists []. split_and!; [done | | simpl; lia].
    intros τ. simpl. by rewrite E.
  - rewrite for_loop_S in H. destruct (i <? size f) eqn:E.
    2:{ inversion H; subst. exists []. split_and!; [done | | simpl; lia].
        intros τ. rewrite for_loop_S. by rewrite E. }
    apply bind_Returns in H as ([[f1 i1] σ1] & Hb & H).
    apply body_used in Hb as (u1 & -> & _ & Hrest1 & Htot1).
    apply IH in H as (u2 & -> & Hrest2 & Htot2).
    exists (u1 ++ u2). split_and!.
    + by rewrite app_assoc.
    + intros τ. rewrite for_loop_S, E, <- app_assoc, Hrest1, Returns_bind.
      apply Hrest2.
    + rewrite raises_app. lia.
Qed.

Lemma for_loop_fuel_mono n : ∀ m σ f i r,
  for_loop n σ f i = Returns r → (n ≤ m)%nat → for_loop m σ f i = Returns r.
Proof.
  induction n as [|n IH]; intros m σ f i r H Hle.
  - simpl in H. destruct (i <? size f) eqn:E; [discriminate|].
    destruct m; simpl; by rewrite E.
  - destruct m as [|m]; [lia|]. rewrite for_loop_S in *.
    destruct (i <? size f); [|done].
    apply bind_Returns in H as ([[f1 i1] σ1] & Hb & H).
    rewrite Hb, Returns_bind. apply IH; [done | lia].
Qed.

Lemma run_used σ f f' σ' :
  run σ f = Returns (f', σ') →
  ∃ used, σ = used ++ σ' ∧ (∀ τ, run (used ++ τ) f = Returns (f', τ)) ∧
          total_errors f' = total_errors f + raises used.
Proof.
  intros H. apply run_Returns in H as (f0 & f1 & H0 & Hloop & H2).
  apply for_loop_used in Hloop as (used & -> & Hrest & Htot).
  exists used. split_and!; [done | |].
  - intros τ. unfold run. rewrite H0, Returns_bind.
    destruct (decide (length (used ++ σ') ≤ length (used ++ τ))%nat) as [Hle|Hgt].
    + rewrite (for_loop_fuel_mono _ (S (length (used ++ τ))) _ _ _ _ (Hrest τ))
        by lia.
      by rewrite Returns_bind, H2.
    + rewrite (for_loop_fuel_irrel (S (length (used ++ τ))) (S (length (used ++ σ'))))
        by lia.
      by rewrite (Hrest τ), Returns_bind, H2.
  - apply inc_flowStarted_Returns in H0. apply inc_flowCompleted_Returns in H2.
    subst f0 f'. exact Htot.
Qed.

(** A run reads its script from the front: what it leaves is a tail of the
    script, and what follows the part it read has no influence on it. *)
Theorem run_reads_prefix (σ σ' : list event) (f f' : Flow) :
  run σ f = Returns (f', σ') →
  ∃ used, σ = used ++ σ' ∧ ∀ τ, run (used ++ τ) f = Returns (f', τ).
Proof.
  intros H. apply run_used in H as (used & Hσ & Hrest & _). eauto.
Qed.

(** The errors that a run records, summed over all steps, are the failed
    calls of [execute()] in the part of the script it read: every
    [FlowExecutionException] is counted once, and nothing else is. *)
Theorem run_total_errors (σ σ' : list event) (f f' : Flow) :
  run σ f = Returns (f', σ') →
  ∃ used, σ = used ++ σ' ∧ total_errors f' = total_errors f + raises used.
Proof.
  intros H. apply run_used in H as (used & Hσ & _ & Htot). eauto.
Qed.

Lemma for_loop_min_events fuel : ∀ σ f i f' σ',
  for_loop fuel σ f i = Returns (f', σ') → 0 ≤ i ≤ size f → size f ≤ SIZE_MAX →
  Z.of_nat (length σ') + 2 * (size f - i) ≤ Z.of_nat (length σ).
Proof.
  induction fuel as [|fuel IH]; intros σ f i f' σ' H Hi Hsz; simpl in H.
  - destruct (i <? size f) eqn:E; [discriminate|]. inversion H; subst.
    apply Z.ltb_ge in E. lia.
  - destruct (i <? size f) eqn:E.
    2:{ inversion H; subst. apply Z.ltb_ge in E. lia. }
    bind_inv H. destruct a as [[f1 i1] σ1].
    pose proof (body_next_index _ _ _ _ _ _ Hsz Ha) as [Hr Hnext].
    pose proof Ha as Hspec.
    apply body_spec in Hspec as (p0 & dc & dk & de & _ & Hev & _).
    apply body_used in Ha as (u1 & -> & Hlen & _ & _).
    pose proof (evolves_size _ _ Hev) as Hsize.
    rewrite length_app.
    destruct Hnext as [Hn|Hn]; rewrite Hn in H;
      apply IH in H; rewrite ?Hsize in *; lia.
Qed.

(** Every step takes at least two events of the script (a reply to the run
    question and either a reply to the skip question or the end of an
    [execute()] call): a run that returns has read at least twice as many
    events as the flow has steps. *)
Theorem run_min_events (σ σ' : list event) (f f' : Flow) :
  size f ≤ SIZE_MAX → run σ f = Returns (f', σ') →
  (length σ' + 2 * length (steps f) ≤ length σ)%nat.
Proof.
  intros Hsz H. apply run_Returns in H as (f0 & f1 & H0 & Hloop & _).
  apply inc_flowStarted_Returns in H0.
  apply for_loop_min_events in Hloop; subst f0; unfold size in *; simpl in *; lia.
Qed.

(** ** Runs in which every step is decided at once *)

Lemma bump_lt inc ds dc dk de p f :
  increment inc ds dc dk de →
  ds * startedCount (entry f p) + dc * completedCount (entry f p) +
    dk * skippedCount (entry f p) + de * errorCount (entry f p) < INT_MAX →
  ∃ f', bump inc p f = Returns f'.
Proof.
  intros Hinc Hlt. unfold bump.
  destruct Hinc; unfold inc_started, inc_completed, inc_skipped, inc_error;
    rewrite pre_increment_lt by lia; simpl; eauto.
Qed.

(** The two visits of [visit_script], with bounds that keep the counters
    in the range of [int]. *)
Lemma body_decided d σ g i q :
  step_at g i = Returns q →
  startedCount (entry g q) < INT_MAX → completedCount (entry g q) < INT_MAX →
  skippedCount (entry g q) < INT_MAX →
  ∃ g', body (visit_script d ++ σ) g i = Returns (g', i, σ) ∧ evolves g g' ∧
        delta g g' q 1 (if d then 1 else 0) (if d then 0 else 1) 0.
Proof.
  intros Hq Hs Hc Hk.
  destruct (bump_lt _ _ _ _ _ q g incr_started ltac:(lia)) as [g1 Hb1].
  destruct (bump_delta _ _ _ _ _ _ _ _ incr_started (step_at_elem _ _ _ Hq) Hb1)
    as [Hev1 Hd1].
  destruct Hd1 as (Hs1 & Hc1 & Hk1 & He1 & Ho1).
  assert (Hq1 : step_at g1 i = Returns q) by by rewrite (step_at_evolves _ _ _ Hev1).
  assert (Hin1 : q ∈ steps g1) by by eapply step_at_elem.
  destruct d.
  - destruct (bump_lt _ _ _ _ _ q g1 incr_completed ltac:(lia)) as [g2 Hb2].
    destruct (bump_delta _ _ _ _ _ _ _ _ incr_completed Hin1 Hb2) as [Hev2 Hd2].
    exists g2. split_and!.
    + unfold body, askUserToRunStep. rewrite Hq, Returns_bind, Hb1, Returns_bind.
      simpl. by rewrite Hq1, Returns_bind, Hb2.
    + by eapply evolves_trans.
    + destruct Hd2 as (? & ? & ? & ? & Ho2). unfold delta. split_and!; try lia.
      intros r Hr. rewrite Ho2, Ho1; auto.
  - destruct (bump_lt _ _ _ _ _ q g1 incr_skipped ltac:(lia)) as [g2 Hb2].
    destruct (bump_delta _ _ _ _ _ _ _ _ incr_skipped Hin1 Hb2) as [Hev2 Hd2].
    exists g2. split_and!.
    + unfold body, askUserToRunStep, askUserToSkipStep.
      rewrite Hq, Returns_bind, Hb1, Returns_bind.
      simpl. by rewrite Hq1, Returns_bind, Hb2.
    + by eapply evolves_trans.
    + destruct Hd2 as (? & ? & ? & ? & Ho2). unfold delta. split_and!; try lia.
      intros r Hr. rewrite Ho2, Ho1; auto.
Qed.

Lemma for_loop_decided ds : ∀ g i rest fuel,
  0 ≤ i → i + Z.of_nat (length ds) = size g → size g ≤ SIZE_MAX →
  settled g → (∀ q, counters_le StepAnalytics_init (entry g q)) →
  (∀ q, startedCount (entry g q) + Z.of_nat (length ds) < INT_MAX) →
  (length ds < fuel)%nat →
  ∃ g', for_loop fuel (decided_script ds ++ rest) g i = Returns (g', rest) ∧
        evolves g g' ∧
        ∀ p, let l := zip (drop (Z.to_nat i) (steps g)) ds in
          startedCount (entry g' p) = startedCount (entry g p) + visits p (λ _, true) l ∧
          completedCount (entry g' p) = completedCount (entry g p) + visits p id l ∧
          skippedCount (entry g' p) = skippedCount (entry g p) + visits p negb l ∧
          errorCount (entry g' p) = errorCount (entry g p).
Proof.
  induction ds as [|d ds IH]; intros g i rest fuel Hi Hlen Hsz Hset Hnn Hst Hfuel.
  - exists g. simpl in *. split_and!.
    + destruct fuel; [lia|]. rewrite for_loop_S.
      destruct (i <? size g) eqn:E; [apply Z.ltb_lt in E; lia | done].
    + apply evolves_refl.
    + intros p. rewrite zip_with_nil_r. simpl. lia.
  - simpl length in *.
    destruct (step_at_in_range g i ltac:(lia)) as (q & Hq & Hlook).
    pose proof (Hset q) as Hsq. pose proof (Hnn q) as (Hn1 & Hn2 & Hn3 & Hn4).
    pose proof (Hst q) as Hstq. simpl in *.
    destruct (body_decided d (decided_script ds ++ rest) g i q Hq)
      as (g1 & Hbody & Hev1 & Hd1); try lia.
    destruct fuel as [|fuel]; [lia|].
    assert (Hsize1 : size g1 = size g) by by apply evolves_size.
    destruct Hd1 as (Hs1 & Hc1 & Hk1 & He1 & Ho1).
    destruct (IH g1 (i + 1) rest fuel) as (g' & Hloop & Hev' & Hcount); try lia.
    + eapply body_settled; [exact Hbody | done].
    + intros r. eapply counters_le_trans; [apply Hnn | apply (ev_counters _ _ Hev1)].
    + intros r. destruct (decide (r = q)) as [->|Hne].
      * lia.
      * rewrite (Ho1 r Hne). specialize (Hst r). lia.
    + exists g'. split_and!.
      * rewrite for_loop_S.
        assert (E : (i <? size g) = true) by (apply Z.ltb_lt; lia).
        rewrite E, <- app_assoc, Hbody, Returns_bind.
        rewrite size_t_inc_next by lia. exact Hloop.
      * by eapply evolves_trans.
      * intros p. specialize (Hcount p). simpl in Hcount.
        rewrite (ev_steps _ _ Hev1) in Hcount.
        replace (Z.to_nat (i + 1)) with (S (Z.to_nat i)) in Hcount by lia.
        rewrite (drop_S _ q (Z.to_nat i)) by done. simpl.
        destruct Hcount as (Hcs & Hcc & Hck & Hce).
        destruct (decide (q = p)) as [->|Hne].
        -- rewrite Hcs, Hcc, Hck, Hce. destruct d; simpl; lia.
        -- rewrite Hcs, Hcc, Hck, Hce, (Ho1 p) by done. lia.
Qed.

(** A run in which the prompter decides every step at once, running it
    (with [execute()] succeeding and the completion confirmed) or skipping
    it, returns with the rest of the script untouched.  Each address gains
    one start per place it has in the flow, one completion per place that
    was run and one skip per place that was skipped; no error is recorded. *)
Theorem run_decided (ds : list bool) (rest : list event) (f : Flow) :
  reachable f → length ds = length (steps f) →
  flowStartedCount f < INT_MAX →
  (∀ q, startedCount (entry f q) + size f < INT_MAX) →
  ∃ f', run (decided_script ds ++ rest) f = Returns (f', rest) ∧
        flowCompletedCount f' = flowCompletedCount f + 1 ∧
        ∀ p, let l := zip (steps f) ds in
          startedCount (entry f' p) = startedCount (entry f p) + visits p (λ _, true) l ∧
          completedCount (entry f' p) = completedCount (entry f p) + visits p id l ∧
          skippedCount (entry f' p) = skippedCount (entry f p) + visits p negb l ∧
          errorCount (entry f' p) = errorCount (entry f p).
Proof.
  intros Hr Hlen Hfs Hst.
  pose proof (reachable_is_settled f Hr) as Hset.
  pose proof (reachable_flow_level f Hr) as [Hfc _].
  apply reachable_well_formed in Hr as [Hsz _ _ Hnn].
  set (f0 := mkFlow (name f) (steps f) (timestamp f) (analytics f)
                    (flowStartedCount f + 1) (flowCompletedCount f)
                    (totalErrorsAcrossFlows f)).
  assert (H0 : inc_flowStarted f = Returns f0).
  { unfold inc_flowStarted. by rewrite pre_increment_lt. }
  destruct (for_loop_decided ds f0 0 rest (S (length (decided_script ds ++ rest))))
    as (f1 & Hloop & Hev & Hcount); try done.
  - unfold size in *. simpl. lia.
  - intros q. specialize (Hst q). unfold size in Hst. change (entry f0 q) with (entry f q).
    lia.
  - rewrite length_app. clear.
    induction ds as [|[] ds IH]; simpl in *; lia.
  - assert (Hc1 : flowCompletedCount f1 < INT_MAX).
    { rewrite (ev_flowCompleted _ _ Hev). simpl. lia. }
    eexists. split_and!.
    + unfold run. rewrite H0, Returns_bind, Hloop, Returns_bind.
      unfold inc_flowCompleted. rewrite pre_increment_lt by done. reflexivity.
    + simpl. by rewrite (ev_flowCompleted _ _ Hev).
    + intros p. exact (Hcount p).
Qed.

(** ** The rows of the analytics report *)

Lemma reachable_dom f : reachable f → ∀ p, p ∈ dom (analytics f) ↔ p ∈ steps f.
Proof.
  intros Hr p. split; [|apply (wf_tracked _ (reachable_well_formed f Hr))].
  revert p. induction Hr as [n now|f step Hr IH Hsz|f σ f' σ' Hr IH Hrun]; intros p Hp.
  - simpl in Hp. by apply not_elem_of_empty in Hp.
  - simpl in *. rewrite dom_insert_L in Hp. apply elem_of_app.
    apply elem_of_union in Hp as [Hp|Hp]; [right | left; by apply IH].
    apply elem_of_singleton in Hp as ->. apply list_elem_of_here.
  - apply run_spec in Hrun. destruct Hrun. rewrite re_steps0.
    destruct (re_dom_new0 p Hp); auto.
Qed.

Lemma key_order_strict (l : list (N * StepAnalytics)) :
  StronglySorted key_le l → NoDup l.*1 → StronglySorted N.lt l.*1.
Proof.
  induction 1 as [|x l Hs IH Hall]; intros Hnd; simpl; [constructor|].
  apply NoDup_cons in Hnd as [Hx Hnd]. constructor; [by apply IH|].
  apply Forall_fmap, Forall_forall. intros y Hy. simpl.
  rewrite Forall_forall in Hall. specialize (Hall y Hy). unfold key_le in Hall.
  assert (x.1 ≠ y.1).
  { intros E. apply Hx. rewrite E. apply list_elem_of_fmap. eauto. }
  change (x.1 < y.1)%N. lia.
Qed.

#[local] Instance key_le_transitive : Transitive key_le.
Proof. intros x y z. unfold key_le. lia. Qed.

#[local] Instance key_le_total : Total key_le.
Proof. intros x y. unfold key_le. lia. Qed.

(** The report has one row for each address in the flow, however often the
    address was added, in ascending order of the addresses (which need not
    be the order of the flow), and each row shows the counters of its
    step; the rows follow the four heading lines and one line on the
    average ends the report. *)
Theorem printAnalytics_rows (f : Flow) :
  reachable f →
  StronglySorted N.lt (in_key_order (analytics f)).*1 ∧
  (∀ p, p ∈ (in_key_order (analytics f)).*1 ↔ p ∈ steps f) ∧
  (∀ p a, (p, a) ∈ in_key_order (analytics f) → a = entry f p) ∧
  ∀ show_address show_double,
    take (length (in_key_order (analytics f)))
         (drop 4 (printAnalytics show_address show_double f))
    = (step_line show_address <$> in_key_order (analytics f)) ∧
    length (printAnalytics show_address show_double f)
    = (5 + length (in_key_order (analytics f)))%nat.
Proof.
  intros Hr. unfold in_key_order.
  pose proof (merge_sort_Permutation key_le (map_to_list (analytics f))) as Hperm.
  split_and!.
  - apply key_order_strict; [apply (StronglySorted_merge_sort key_le)|].
    rewrite Hperm. apply NoDup_fst_map_to_list.
  - intros p. rewrite Hperm, <- (reachable_dom f Hr p), elem_of_dom.
    rewrite list_elem_of_fmap. split.
    + intros ([q a] & -> & Hin). apply elem_of_map_to_list in Hin. simpl. eauto.
    + intros [a Ha]. exists (p, a). split; [done|]. by apply elem_of_map_to_list.
  - intros p a Hin. rewrite Hperm in Hin. apply elem_of_map_to_list in Hin.
    unfold entry. by rewrite Hin.
  - intros show_address show_double. unfold printAnalytics, in_key_order. split.
    + simpl. apply take_app_length'. by rewrite length_fmap.
    + rewrite !length_app, length_fmap. simpl. lia.
Qed.

(** * Further properties of the registry *)

Lemma find_if_app pred (l1 l2 : list Flow) :
  System.find_if pred (l1 ++ l2) =
  if (System.find_if pred l1 <? length l1)%nat then System.find_if pred l1
  else (length l1 + System.find_if pred l2)%nat.
Proof.
  induction l1 as [|x l1 IH]; simpl; [done|].
  destruct (pred x); [done|]. rewrite IH.
  change (S (System.find_if pred l1) <? S (length l1))%nat
    with (System.find_if pred l1 <? length l1)%nat.
  by destruct (_ <? _)%nat.
Qed.

Lemma delete_at_end (l : list Flow) x : delete (length l) (l ++ [x]) = l.
Proof. induction l as [|y l IH]; simpl; [done | by rewrite IH]. Qed.

Lemma delete_app_lt (l1 l2 : list Flow) i :
  (i < length l1)%nat → delete i (l1 ++ l2) = delete i l1 ++ l2.
Proof.
  revert i. induction l1 as [|y l1 IH]; intros i Hi; simpl in *; [lia|].
  destruct i; simpl; [done|]. rewrite IH; [done | lia].
Qed.

Lemma find_if_bound pred (l : list Flow) : (System.find_if pred l ≤ length l)%nat.
Proof. induction l as [|x l IH]; simpl; [lia|]. destruct (pred x); lia. Qed.

(** [createFlow] does not check the name.  Deleting a name right after
    creating it gives the registry back when the name was new; when the
    name was taken, it is the older flow of that name that goes, and the
    new one stays listed. *)
Theorem deleteFlow_after_createFlow (flowName : string) (now : Z) (flows : System.t) :
  (flowName ∉ System.printFlows flows →
   System.deleteFlow flowName (System.createFlow flowName now flows)
   = (Returns (), flows)) ∧
  (flowName ∈ System.printFlows flows →
   System.deleteFlow flowName (System.createFlow flowName now flows)
   = (Returns (), (System.deleteFlow flowName flows).2 ++ [Flow_new flowName now]) ∧
   flowName ∈ System.printFlows
     (System.deleteFlow flowName (System.createFlow flowName now flows)).2).
Proof.
  unfold System.deleteFlow, System.createFlow. split.
  - intros Hnot. rewrite find_if_app, (find_if_missing _ _ Hnot).
    rewrite Nat.ltb_irrefl. simpl. rewrite String.eqb_refl, Nat.add_0_r.
    rewrite length_app. simpl.
    destruct (length flows <? length flows + 1)%nat eqn:E;
      [|apply Nat.ltb_ge in E; lia].
    by rewrite delete_at_end.
  - intros Hin.
    destruct (find_if_found _ _ Hin) as (before & flow & after & -> & Hn & Hnot & Hfind).
    rewrite find_if_app, Hfind.
    assert (Hlt : (length before <? length (before ++ flow :: after))%nat = true).
    { apply Nat.ltb_lt. rewrite length_app. simpl. lia. }
    rewrite Hlt.
    assert (Hlt' : (length before <?
                    length ((before ++ flow :: after) ++ [Flow_new flowName now]))%nat
                   = true).
    { apply Nat.ltb_lt. rewrite !length_app. simpl. lia. }
    rewrite Hlt'. simpl.
    rewrite delete_app_lt by (rewrite length_app; simpl; lia).
    split; [done|].
    unfold System.printFlows. rewrite fmap_app. apply elem_of_app. right.
    simpl. apply list_elem_of_here.
Qed.

(** With no name used twice, a delete frees the name: the name is no
    longer listed, the names stay unique, and deleting it once more throws
    [FlowNotFoundException]. *)
Theorem deleteFlow_twice (flowName : string) (flows : System.t) :
  NoDup (System.printFlows flows) → flowName ∈ System.printFlows flows →
  ∃ flows',
    System.deleteFlow flowName flows = (Returns (), flows') ∧
    (flowName ∉ System.printFlows flows') ∧
    NoDup (System.printFlows flows') ∧
    length flows = S (length flows') ∧
    System.deleteFlow flowName flows' = (Throws (FlowNotFoundException flowName), flows').
Proof.
  intros Hnd Hin.
  destruct (find_if_found _ _ Hin) as (before & flow & after & -> & Hn & Hnot & Hfind).
  unfold System.printFlows in Hnd. rewrite fmap_app in Hnd. simpl in Hnd.
  apply NoDup_app in Hnd as (Hnd1 & Hdisj & Hnd2).
  apply NoDup_cons in Hnd2 as [Hflow Hnd2].
  assert (Hnot' : flowName ∉ System.printFlows (before ++ after)).
  { unfold System.printFlows. rewrite fmap_app. intros [H|H]%elem_of_app.
    - by apply Hnot.
    - apply Hflow. by rewrite Hn. }
  exists (before ++ after). split_and!.
  - unfold System.deleteFlow. rewrite Hfind.
    assert (Hlt : (length before <? length (before ++ flow :: after))%nat = true).
    { apply Nat.ltb_lt. rewrite length_app. simpl. lia. }
    rewrite Hlt. f_equal. clear. induction before as [|b before IH]; simpl; [done|].
    by f_equal.
  - exact Hnot'.
  - unfold System.printFlows. rewrite fmap_app. apply NoDup_app. split_and!; [done | | done].
    intros x Hx Hx'. apply (Hdisj x Hx). by apply list_elem_of_further.
  - rewrite !length_app. simpl. lia.
  - unfold System.deleteFlow. rewrite (find_if_missing _ _ Hnot').
    by rewrite Nat.ltb_irrefl.
Qed.

(** ** Running a flow by name *)

(** The menu runs the first flow of the name typed, in place: the flows
    before and after it, also later flows of the same name, are left as
    they are, and so is the list of names.  For a name that is not
    registered nothing is run, nothing changes and nothing is thrown. *)
Theorem main_run_flow_spec (σ : list event) (flowToRun : string) (flows : System.t) :
  (flowToRun ∉ System.printFlows flows →
   main_run_flow σ flowToRun flows = Returns (flows, σ)) ∧
  (∀ before flow after flow' σ',
     flows = before ++ flow :: after → getName flow = flowToRun →
     flowToRun ∉ System.printFlows before →
     run σ flow = Returns (flow', σ') →
     main_run_flow σ flowToRun flows = Returns (before ++ flow' :: after, σ') ∧
     System.printFlows (before ++ flow' :: after) = System.printFlows flows).
Proof.
  unfold main_run_flow, System.getFlows, System.t in *. split.
  - intros Hnot. rewrite (find_if_missing _ _ Hnot). by rewrite Nat.ltb_irrefl.
  - intros before flow after flow' σ' -> Hn Hnot Hrun.
    assert (Hfind : System.find_if (λ flow0, String.eqb (getName flow0) flowToRun)
                      (before ++ flow :: after) = length before).
    { rewrite find_if_app, (find_if_missing _ _ Hnot), Nat.ltb_irrefl. simpl.
      rewrite Hn, String.eqb_refl. lia. }
    rewrite Hfind.
    assert (Hlt : (length before <? length (before ++ flow :: after))%nat = true).
    { apply Nat.ltb_lt. rewrite length_app. simpl. lia. }
    rewrite Hlt, list_lookup_middle by done. rewrite Hrun, Returns_bind.
    split.
    + cbn [mret outcome_ret]. do 2 f_equal.
      clear. induction before as [|b before IH]; simpl; [done | by f_equal].
    + unfold System.printFlows. rewrite !fmap_app. simpl. do 2 f_equal.
      apply run_spec in Hrun. unfold getName. apply (re_name _ _ Hrun).
Qed.

(** * Further properties of the steps *)

(** ** How a call of [execute()] can end *)

Section CalculusStep_total.

Context {T : Type} `{Numeric T}.
Import CalculusStep.
Implicit Types self : t (T := T).

(** With an operation outside the six the loop returns in its first
    turn, or makes none. *)
Lemma loop_unsupported self : binop (operation self) = None →
  ∀ fuel i result, (0 < fuel)%nat → 0 ≤ i ≤ SIZE_MAX →
    ∃ e, loop self fuel i result = Returns e.
Proof.
  intros Hop [|fuel] i result Hfuel Hi; [lia|]. simpl.
  destruct ((i <? steps self)
            && (size_t_of_int i <? Z.of_nat (length (inputValues self)))) eqn:Hc;
    [|eauto].
  destruct (fold_from_next self i Hc Hi) as (x & -> & _).
  unfold binop in Hop.
  repeat (destruct (String.eqb (operation self) _); [discriminate Hop|]).
  eauto.
Qed.

(** The computation returns, or its arithmetic overflows. *)
Lemma compute_returns_or_overflows self :
  Z.of_nat (length (inputValues self)) ≤ SIZE_MAX →
  (∃ e, compute self = Returns e) ∨ (compute self = Undefined ∧ overflows self = true).
Proof.
  intros Hsz. unfold compute.
  destruct ((steps self <=? 0) || (Z.of_nat (length (inputValues self)) <? 2)) eqn:Hcfg;
    [eauto|].
  apply orb_false_iff in Hcfg as [_ Hn]. apply Z.ltb_ge in Hn.
  destruct (inputValues self) as [|first rest] eqn:Hin; [simpl in Hn; lia|].
  simpl lookup. cbv iota. rewrite <- Hin.
  destruct (binop (operation self)) as [g|] eqn:Hop.
  - pose proof (loop_ends self g Hop ltac:(by rewrite Hin) (length (inputValues self)) 1 first
                  ltac:(unfold SIZE_MAX; lia) ltac:(rewrite Hin; simpl; lia)) as Hends.
    rewrite <- folded_fold_from in Hends.
    destruct (loop self (length (inputValues self)) 1 first) as [e| | | |]; try done;
      [eauto|].
    right. split; [done|]. unfold overflows. rewrite Hop, Hin.
    destruct Hends as [-> ->]. done.
  - left. apply loop_unsupported; [done | rewrite Hin; simpl; lia | unfold SIZE_MAX; lia].
Qed.

Lemma CalculusStep_execute_ends self :
  Z.of_nat (length (inputValues self)) ≤ SIZE_MAX →
  (execute self).2 = Returns () ∨
  ((execute self).2 = Undefined ∧ overflows self = true).
Proof.
  intros Hsz. unfold execute.
  destruct (compute_returns_or_overflows self Hsz) as [[[r|m] ->]|[-> Ho]]; auto.
Qed.

End CalculusStep_total.

Lemma TextInputStep_execute_ends fs self :
  fits (TextInputStep.textInput self) →
  (TextInputStep.execute fs self).2 = Returns () ∨
  (TextInputStep.execute fs self).2 = Throws (FlowExecutionException "TextInputStep").
Proof.
  intros Hlen. unfold TextInputStep.execute.
  destruct (extension_is_spec _ "txt" Hlen) as (b & -> & _).
  destruct b; [destruct (fs _)|]; simpl; auto.
Qed.

Lemma CSVInputStep_execute_ends fs self :
  fits (CSVInputStep.csvFilePath self) →
  (CSVInputStep.execute fs self).2 = Returns () ∨
  (CSVInputStep.execute fs self).2 = Throws (FlowExecutionException "CSVInputStep").
Proof.
  intros Hlen. unfold CSVInputStep.execute.
  destruct (extension_is_spec _ "csv" Hlen) as (b & -> & _).
  destruct b; [destruct (fs _)|]; simpl; auto.
Qed.

Lemma FileInputStep_execute_ends fs self :
  (FileInputStep.execute fs self).2 = Returns () ∨
  (FileInputStep.execute fs self).2 = Throws (FlowExecutionException "FileInputStep").
Proof. unfold FileInputStep.execute. destruct (fs _); simpl; auto. Qed.

(** Membership in a list written out. *)
Ltac listed :=
  unfold thrown_names;
  repeat first [apply list_elem_of_here | apply list_elem_of_further].

(** Whatever the class of a step and whatever it meets outside, its
    [execute()] returns or throws a [FlowExecutionException], the one
    exception that [run] catches, under one of five class names: no step
    ends a run with another exception, and none leaves it waiting.  The one
    other end is the overflow of the arithmetic of a [CalculusStep], where
    the call is undefined. *)
Theorem execute_ends (w : world) (step : Step) :
  sized step →
  (∃ r, exec_result_of (execute w step).2 = Some r ∧
        (r = Completes ∨ ∃ stepName, r = Raises stepName ∧ stepName ∈ thrown_names)) ∨
  ((execute w step).2 = Undefined ∧ overflowing step = true).
Proof.
  assert (Hname : ∀ (o : outcome unit) stepName (P : Prop),
            o = Returns () ∨ o = Throws (FlowExecutionException stepName) →
            stepName ∈ thrown_names →
            (∃ r, exec_result_of o = Some r ∧
                  (r = Completes ∨ ∃ n, r = Raises n ∧ n ∈ thrown_names)) ∨ P).
  { intros o n P [->| ->] Hin; left; simpl; eauto 6. }
  assert (Hdone : ∀ P : Prop,
            (∃ r, exec_result_of (Returns ()) = Some r ∧
                  (r = Completes ∨ ∃ n, r = Raises n ∧ n ∈ thrown_names)) ∨ P).
  { intros P. left. exists Completes. auto. }
  induction step as [s|s|s|s|s|s|s|prev IH| |T numeric s|T numeric s|s|];
    intros Hsized; simpl in *.
  - apply Hdone.
  - apply Hdone.
  - apply (Hname _ "TextInputStep"); [by apply TextInputStep_execute_ends|].
    listed.
  - apply (Hname _ "CSVInputStep"); [by apply CSVInputStep_execute_ends|].
    listed.
  - apply (Hname _ "FileInputStep"); [apply FileInputStep_execute_ends|].
    listed.
  - apply (Hname _ "FileInputStep"); [apply FileInputStep_execute_ends|].
    listed.
  - apply (Hname _ "FileInputStep"); [apply FileInputStep_execute_ends|].
    listed.
  - destruct (is_FileInputStep prev); by apply IH.
  - left. exists (Raises "DisplayStep"). split; [done|]. right. eexists. split; [done|].
    listed.
  - apply Hdone.
  - destruct (CalculusStep_execute_ends s Hsized) as [->|[-> Ho]]; [apply Hdone | by right].
  - unfold OutputStep.execute. destruct (creatable w _); simpl.
    + apply Hdone.
    + left. exists (Raises "OutputStep"). split; [done|]. right. eexists. split; [done|].
      listed.
  - apply Hdone.
Qed.

(** A title, a text, a number or an end step, a calculus step whose
    arithmetic stays within [T], or a display of one of them, always
    returns, whatever it meets outside: in a run such a step raises no
    error count. *)
Theorem execute_never_fails (w : world) (step : Step) :
  throws_nothing step = true → sized step → overflowing step = false →
  (execute w step).2 = Returns ().
Proof.
  induction step as [s|s|s|s|s|s|s|prev IH| |T numeric s|T numeric s|s|];
    intros Hplain Hsized Hin_range; simpl in *; try done.
  - destruct (is_FileInputStep prev); by apply IH.
  - destruct (CalculusStep_execute_ends s Hsized) as [->|[_ Ho]]; [done|].
    rewrite Ho in Hin_range. discriminate.
Qed.

(** ** Reading a file line by line *)

Lemma string_app_cons c (a b : string) : String c a +:+ b = String c (a +:+ b).
Proof. reflexivity. Qed.

Lemma string_app_nil (b : string) : EmptyString +:+ b = b.
Proof. reflexivity. Qed.

Lemma string_app_assoc (a b c : string) : (a +:+ b) +:+ c = a +:+ (b +:+ c).
Proof.
  induction a as [|x a IH]; [done|]. by rewrite !string_app_cons, IH.
Qed.

Lemma string_app_empty_r (a : string) : a +:+ EmptyString = a.
Proof.
  induction a as [|x a IH]; [done|]. by rewrite string_app_cons, IH.
Qed.

Lemma getlines_line l : ∀ rest acc,
  has_newline l = false →
  getlines (l +:+ String "010" rest) acc = (acc +:+ l) :: getlines rest EmptyString.
Proof.
  induction l as [|c l IH]; intros rest acc Hl.
  - rewrite string_app_nil, string_app_empty_r. reflexivity.
  - simpl in Hl. apply orb_false_iff in Hl as [Hc Hl].
    rewrite string_app_cons. simpl. rewrite Hc, IH by done.
    by rewrite string_app_assoc.
Qed.

Lemma getlines_last l : ∀ acc,
  has_newline l = false →
  getlines l acc = if String.eqb (acc +:+ l) EmptyString then [] else [acc +:+ l].
Proof.
  induction l as [|c l IH]; intros acc Hl.
  - rewrite string_app_empty_r. reflexivity.
  - simpl in Hl. apply orb_false_iff in Hl as [Hc Hl].
    simpl. rewrite Hc, IH by done.
    by rewrite string_app_assoc.
Qed.

Lemma getlines_unlines_app ls : ∀ tail,
  Forall (λ l, has_newline l = false) ls →
  getlines (unlines ls +:+ tail) EmptyString = ls ++ getlines tail EmptyString.
Proof.
  induction ls as [|l ls IH]; intros tail Hls; [done|].
  apply Forall_cons in Hls as [Hl Hls].
  simpl unlines. rewrite string_app_assoc, string_app_cons.
  rewrite getlines_line by done. rewrite string_app_nil, IH by done. reflexivity.
Qed.

(** Reading line by line gives back the lines of a file: each line that a
    line feed ends, and a last line without one if it is not empty.  So
    [FileInputStep] writes its description and then the lines of the
    file, and [CSVInputStep] the lines, each after ["CSV Input: "]. *)
Theorem getlines_unlines (ls : list string) :
  Forall (λ l, has_newline l = false) ls →
  getlines (unlines ls) EmptyString = ls ∧
  (∀ last, last ≠ EmptyString → has_newline last = false →
           getlines (unlines ls +:+ last) EmptyString = ls ++ [last]) ∧
  (∀ fs self, fs (FileInputStep.filePath self) = Some (unlines ls) →
     FileInputStep.execute fs self
     = (Cout ("Description: " +:+ FileInputStep.description self) :: (Cout <$> ls),
        Returns ())) ∧
  (∀ fs self, extension_is (CSVInputStep.csvFilePath self) "csv" = Returns true →
     fs (CSVInputStep.csvFilePath self) = Some (unlines ls) →
     CSVInputStep.execute fs self
     = ((λ line, Cout ("CSV Input: " +:+ line)) <$> ls, Returns ())).
Proof.
  intros Hls.
  assert (Hall : getlines (unlines ls) EmptyString = ls).
  { pose proof (getlines_unlines_app ls EmptyString Hls) as H.
    rewrite string_app_empty_r in H. rewrite H. apply app_nil_r. }
  split_and!.
  - exact Hall.
  - intros last Hne Hlast. rewrite getlines_unlines_app by done.
    rewrite getlines_last by done. rewrite string_app_nil.
    destruct (String.eqb_spec last EmptyString); [done | done].
  - intros fs self Hfs. unfold FileInputStep.execute. by rewrite Hfs, Hall.
  - intros fs self Hext Hfs. unfold CSVInputStep.execute. by rewrite Hext, Hfs, Hall.
Qed.

(** ** The extension test on a path with a dot *)

Lemma extension_is_with_dot path ext :
  fits path → has_dot path = true →
  extension_is path ext = Returns (bool_decide (extension path = Some ext)).
Proof.
  intros Hfits Hdot.
  destruct (extension_is_spec path ext Hfits) as (b & -> & Hb). f_equal.
  assert (Hsome : extension path ≠ None).
  { intros E. apply extension_None in E. congruence. }
  case_bool_decide as Hext.
  - apply Hb. by left.
  - destruct b; [|done]. destruct Hb as [Hb _].
    destruct (Hb eq_refl) as [?|[? _]]; done.
Qed.

(** On an input with a dot, [TextInputStep] reads a file exactly when the
    part after the last dot is [txt]; any other input is written out
    unchanged as text, and then [execute()] cannot fail. *)
Theorem TextInputStep_with_dot (fs : string → option string) (self : TextInputStep.t) :
  fits (TextInputStep.textInput self) → has_dot (TextInputStep.textInput self) = true →
  TextInputStep.execute fs self =
    if bool_decide (extension (TextInputStep.textInput self) = Some "txt") then
      match fs (TextInputStep.textInput self) with
      | Some content => ([Cout ("Text Input (from file): " +:+ content)], Returns ())
      | None =>
          ([Cerr ("Error: Unable to open text file '"
                  +:+ TextInputStep.textInput self +:+ "'")],
           Throws (FlowExecutionException "TextInputStep"))
      end
    else ([Cout ("Text Input: " +:+ TextInputStep.textInput self)], Returns ()).
Proof.
  intros Hfits Hdot. unfold TextInputStep.execute.
  rewrite (extension_is_with_dot _ "txt" Hfits Hdot).
  by destruct (bool_decide _).
Qed.

(** On a path with a dot, [CSVInputStep] throws with the message of an
    invalid file type exactly when the part after the last dot is not
    [csv]; otherwise it reads the file, and throws only if the file cannot
    be opened. *)
Theorem CSVInputStep_with_dot (fs : string → option string) (self : CSVInputStep.t) :
  fits (CSVInputStep.csvFilePath self) → has_dot (CSVInputStep.csvFilePath self) = true →
  CSVInputStep.execute fs self =
    if bool_decide (extension (CSVInputStep.csvFilePath self) = Some "csv") then
      match fs (CSVInputStep.csvFilePath self) with
      | Some content =>
          ((λ line, Cout ("CSV Input: " +:+ line)) <$> getlines content EmptyString,
           Returns ())
      | None =>
          ([Cerr ("Error: Unable to open CSV file '"
                  +:+ CSVInputStep.csvFilePath self +:+ "'")],
           Throws (FlowExecutionException "CSVInputStep"))
      end
    else ([Cerr "Error: Invalid file type for CSVInputStep"],
          Throws (FlowExecutionException "CSVInputStep")).
Proof.
  intros Hfits Hdot. unfold CSVInputStep.execute.
  rewrite (extension_is_with_dot _ "csv" Hfits Hdot).
  by destruct (bool_decide _).
Qed.

(** ** [CalculusStep]: operations outside the six, and the extremes *)

Section CalculusStep_edges.

Context {T : Type} `{Numeric T}.
Import CalculusStep.
Implicit Types self : t (T := T).

Lemma compute_folds self g :
  1 ≤ steps self → (2 ≤ length (inputValues self))%nat →
  Z.of_nat (length (inputValues self)) ≤ SIZE_MAX →
  binop (operation self) = Some g → overflows self = false →
  ∃ first rest,
    inputValues self = first :: rest ∧
    folded self = take (Z.to_nat (Z.min (steps self - 1)
                                        (Z.of_nat (length (inputValues self)) - 1))) rest ∧
    (divides_by_zero self = false →
     compute self = Returns (Finished (foldl g first (folded self)))).
Proof.
  intros Hs Hn Hsz Hop Ho.
  destruct (compute_ends self g Hs Hn Hsz Hop) as (first & rest & Hin & Hfolded & _ & Hc).
  rewrite Ho in Hc. eauto.
Qed.

(** With an operation that is none of the six, [execute()] reports the
    operation as unsupported on [cerr] and returns, unless [steps] is 1:
    then the loop makes no turn, the operation is never looked at, and the
    first input value is written as the result. *)
Theorem execute_unsupported_operation self :
  binop (operation self) = None →
  1 ≤ steps self → (2 ≤ length (inputValues self))%nat →
  ∃ first, inputValues self !! 0%nat = Some first ∧
    execute self =
      if steps self =? 1
      then ([Cout ("Calculus Result: " +:+ show first)], Returns ())
      else ([Cerr "Error: Unsupported operation in CalculusStep."], Returns ()).
Proof.
  intros Hop Hs Hn.
  destruct (inputValues self) as [|first [|second rest]] eqn:Hin;
    [simpl in Hn; lia | simpl in Hn; lia |].
  exists first. split; [done|].
  unfold execute, compute. rewrite Hin.
  destruct ((steps self <=? 0) || (Z.of_nat (length (first :: second :: rest)) <? 2))
    eqn:Hcfg.
  { apply orb_true_iff in Hcfg as [Hc|Hc];
      [apply Z.leb_le in Hc | apply Z.ltb_lt in Hc]; simpl in *; lia. }
  simpl lookup. cbv iota. simpl length. cbn [loop]. rewrite Hin.
  destruct (steps self =? 1) eqn:E1.
  - apply Z.eqb_eq in E1. rewrite E1. reflexivity.
  - apply Z.eqb_neq in E1.
    assert (Hlt : (1 <? steps self) = true) by (apply Z.ltb_lt; lia).
    rewrite Hlt.
    assert (Hsize : (size_t_of_int 1 <? Z.of_nat (length (first :: second :: rest)))
                    = true).
    { apply Z.ltb_lt. change (size_t_of_int 1) with 1. simpl length. lia. }
    rewrite Hsize. simpl andb. cbv iota. simpl lookup. cbv iota.
    unfold binop in Hop.
    repeat (destruct (String.eqb (operation self) _); [discriminate Hop|]).
    reflexivity.
Qed.

End CalculusStep_edges.

Lemma foldl_std_min (l : list Z) : ∀ first : Z,
  foldl std_min first l ∈ first :: l ∧ ∀ x, x ∈ first :: l → foldl std_min first l ≤ x.
Proof.
  induction l as [|y l IH]; intros first; simpl.
  - split; [apply list_elem_of_here|]. intros x Hx.
    apply list_elem_of_singleton in Hx as ->. lia.
  - destruct (IH (std_min first y)) as [Hin Hle].
    assert (Hm : std_min first y = Z.min first y).
    { unfold std_min. simpl. destruct (y <? first) eqn:E;
        [apply Z.ltb_lt in E | apply Z.ltb_ge in E]; lia. }
    split.
    + apply elem_of_cons in Hin as [Hin|Hin].
      * rewrite Hin, Hm. destruct (Z.min_spec first y) as [[_ ->]|[_ ->]].
        -- apply list_elem_of_here.
        -- apply list_elem_of_further, list_elem_of_here.
      * by do 2 apply list_elem_of_further.
    + intros x Hx.
      assert (Hmin : foldl std_min (std_min first y) l ≤ std_min first y)
        by (apply Hle, list_elem_of_here).
      apply elem_of_cons in Hx as [->|Hx]; [lia|].
      apply elem_of_cons in Hx as [->|Hx]; [lia|].
      by apply Hle, list_elem_of_further.
Qed.

Lemma foldl_std_max (l : list Z) : ∀ first : Z,
  foldl std_max first l ∈ first :: l ∧ ∀ x, x ∈ first :: l → x ≤ foldl std_max first l.
Proof.
  induction l as [|y l IH]; intros first; simpl.
  - split; [apply list_elem_of_here|]. intros x Hx.
    apply list_elem_of_singleton in Hx as ->. lia.
  - destruct (IH (std_max first y)) as [Hin Hle].
    assert (Hm : std_max first y = Z.max first y).
    { unfold std_max. simpl. destruct (first <? y) eqn:E;
        [apply Z.ltb_lt in E | apply Z.ltb_ge in E]; lia. }
    split.
    + apply elem_of_cons in Hin as [Hin|Hin].
      * rewrite Hin, Hm. destruct (Z.max_spec first y) as [[_ ->]|[_ ->]].
        -- apply list_elem_of_further, list_elem_of_here.
        -- apply list_elem_of_here.
      * by do 2 apply list_elem_of_further.
    + intros x Hx.
      assert (Hmax : std_max first y ≤ foldl std_max (std_max first y) l)
        by (apply Hle, list_elem_of_here).
      apply elem_of_cons in Hx as [->|Hx]; [lia|].
      apply elem_of_cons in Hx as [->|Hx]; [lia|].
      by apply Hle, list_elem_of_further.
Qed.

(** [CalculusStep<int>] under ["min"] writes the least, and under ["max"]
    the greatest, of the first input value and the values folded after it:
    the result is one of them and bounds them all. *)
Theorem execute_min_max (self : CalculusStep.t (T := Z)) :
  1 ≤ CalculusStep.steps self → (2 ≤ length (CalculusStep.inputValues self))%nat →
  Z.of_nat (length (CalculusStep.inputValues self)) ≤ SIZE_MAX →
  CalculusStep.operation self = "min" ∨ CalculusStep.operation self = "max" →
  ∃ first result,
    CalculusStep.inputValues self !! 0%nat = Some first ∧
    CalculusStep.execute self = ([Cout ("Calculus Result: " +:+ show result)], Returns ()) ∧
    result ∈ first :: CalculusStep.folded self ∧
    ∀ x, x ∈ first :: CalculusStep.folded self →
         if String.eqb (CalculusStep.operation self) "min" then result ≤ x
         else x ≤ result.
Proof.
  intros Hs Hn Hsz Hop.
  assert (Hnodiv : CalculusStep.divides_by_zero self = false).
  { unfold CalculusStep.divides_by_zero. by destruct Hop as [-> | ->]. }
  destruct Hop as [Hop|Hop].
  - destruct (compute_folds self std_min Hs Hn Hsz) as (first & rest & Hin & _ & Hc).
    { unfold CalculusStep.binop. by rewrite Hop. }
    { unfold CalculusStep.overflows. rewrite Hop. simpl.
      by destruct (CalculusStep.inputValues self). }
    specialize (Hc Hnodiv). destruct (foldl_std_min (CalculusStep.folded self) first)
      as [Hmem Hle].
    exists first, (foldl std_min first (CalculusStep.folded self)). split_and!.
    + by rewrite Hin.
    + unfold CalculusStep.execute. by rewrite Hc.
    + exact Hmem.
    + intros x Hx. rewrite Hop. simpl. by apply Hle.
  - destruct (compute_folds self std_max Hs Hn Hsz) as (first & rest & Hin & _ & Hc).
    { unfold CalculusStep.binop. by rewrite Hop. }
    { unfold CalculusStep.overflows. rewrite Hop. simpl.
      by destruct (CalculusStep.inputValues self). }
    specialize (Hc Hnodiv). destruct (foldl_std_max (CalculusStep.folded self) first)
      as [Hmem Hle].
    exists first, (foldl std_max first (CalculusStep.folded self)). split_and!.
    + by rewrite Hin.
    + unfold CalculusStep.execute. by rewrite Hc.
    + exact Hmem.
    + intros x Hx. rewrite Hop. simpl. by apply Hle.
Qed.

(** * Further properties across the classes *)

(** Whenever a run stands at the header of its loop, the index lies
    between 0 and the number of steps, although the body may have left it at
    2^64 - 1: the vector of steps is only ever read within its bounds. *)
Theorem header_index_in_range (σ σ1 : list event) (f f1 : Flow) (i : Z) :
  size f ≤ SIZE_MAX → at_header σ f f1 i σ1 →
  0 ≤ i ≤ size f1 ∧ size f1 = size f ∧
  (i < size f1 → ∃ p, step_at f1 i = Returns p ∧ p ∈ steps f).
Proof.
  intros Hsz Hat.
  assert (Hrange : 0 ≤ i ≤ size f1 ∧ steps f1 = steps f).
  { induction Hat as [f0 H0|f1 i σ1 f2 i2 σ2 Hat IH Hi Hb].
    - apply inc_flowStarted_Returns in H0. subst f0. unfold size. simpl.
      split; [lia | done].
    - destruct IH as [IH Hst].
      assert (Hsz1 : size f1 ≤ SIZE_MAX) by (unfold size in *; by rewrite Hst).
      pose proof (body_next_index _ _ _ _ _ _ Hsz1 Hb) as [Hr Hn].
      apply body_spec in Hb as (p & dc & dk & de & _ & Hev & _).
      rewrite (evolves_size _ _ Hev), (ev_steps _ _ Hev). split; [lia | done]. }
  destruct Hrange as [Hr Hst]. split_and!; [lia.. | by unfold size; rewrite Hst |].
  intros Hlt. destruct (step_at_in_range f1 i ltac:(lia)) as (p & Hp & Hlook).
  exists p. split; [done|]. rewrite <- Hst. by eapply list_elem_of_lookup_2.
Qed.

(** On every flow the program can hold, the report shows "N/A" as long as
    the flow was never run, and an average of zero from then on, whatever
    errors its steps have counted. *)
Theorem avgErrorsPerFlow_zero (f : Flow) :
  reachable f →
  (flowCompletedCount f = 0 ∧ avgErrorsPerFlow f = None) ∨
  (0 < flowCompletedCount f ∧ ∃ q, avgErrorsPerFlow f = Some q ∧ (q == 0)%Q).
Proof.
  intros Hr. pose proof (reachable_flow_level f Hr) as [Hc Hs].
  unfold avgErrorsPerFlow. rewrite (reachable_total _ Hr).
  destruct (flowCompletedCount f >? 0) eqn:E.
  - right. apply Z.gtb_lt in E. split; [done|].
    eexists. split; [reflexivity|]. unfold Qdiv. apply Qmult_0_l.
  - left. split; [|done].
    assert (¬ 0 < flowCompletedCount f) by (intros Hlt; apply Z.gtb_lt in Hlt; congruence).
    lia.
Qed.

(** A flow that [createFlow] has just registered has no steps, and the
    registry has no operation that adds one: run by its name from the menu,
    it returns at once, asks nothing, and shows one start and one
    completion. *)
Theorem created_flow_runs_at_once (σ : list event) (flowName : string) (now : Z)
    (flows : System.t) :
  flowName ∉ System.printFlows flows →
  main_run_flow σ flowName (System.createFlow flowName now flows)
  = Returns (flows ++ [mkFlow flowName [] now ∅ 1 1 0], σ).
Proof.
  intros Hnot. unfold main_run_flow, System.getFlows, System.createFlow, System.t in *.
  rewrite find_if_app, (find_if_missing _ _ Hnot), Nat.ltb_irrefl. simpl.
  rewrite String.eqb_refl, Nat.add_0_r, length_app. simpl.
  destruct (length flows <? length flows + 1)%nat eqn:E; [|apply Nat.ltb_ge in E; lia].
  rewrite list_lookup_middle by done.
  rewrite (run_stepless σ (Flow_new flowName now)) by (simpl; unfold INT_MAX; done || lia).
  rewrite Returns_bind. cbn [mret outcome_ret]. do 2 f_equal.
  simpl. clear. induction flows as [|x flows IH]; simpl; [done | by f_equal].
Qed.

(** * The further theorems at work *)

(** The demo flow after its demo run. *)
Lemma demo_flow_run :
  ∃ f', run demo_script demo_flow = Returns (f', []) ∧ reachable f'.
Proof.
  destruct (run demo_script demo_flow) as [[f' σ']|e| | |] eqn:Hrun;
    try (vm_compute in Hrun; discriminate Hrun).
  assert (Hσ : σ' = []).
  { pose proof Hrun as H. vm_compute in H. by inversion H. }
  subst σ'. exists f'. split; [reflexivity|].
  exact (reach_run demo_flow demo_script f' [] demo_flow_reachable Hrun).
Defined.

Lemma reachable_settled_witness :
  ∃ f', run demo_script demo_flow = Returns (f', []) ∧ reachable f' ∧
        completedCount (entry f' 2%N) + skippedCount (entry f' 2%N)
        ≤ startedCount (entry f' 2%N).
Proof.
  destruct demo_flow_run as (f' & Hrun & Hr). exists f'.
  split; [exact Hrun|]. split; [exact Hr|].
  exact (proj1 (reachable_settled f' 2%N Hr)).
Defined.

Lemma reachable_flow_counters_witness :
  ∃ f', run demo_script demo_flow = Returns (f', []) ∧ reachable f' ∧
        flowCompletedCount f' = flowStartedCount f'.
Proof.
  destruct demo_flow_run as (f' & Hrun & Hr). exists f'.
  split; [exact Hrun|]. split; [exact Hr|].
  exact (proj1 (reachable_flow_counters f' Hr)).
Defined.

Lemma avgErrorsPerFlow_zero_witness :
  ∃ f', run demo_script demo_flow = Returns (f', []) ∧ reachable f' ∧
        ((flowCompletedCount f' = 0 ∧ avgErrorsPerFlow f' = None) ∨
         (0 < flowCompletedCount f' ∧ ∃ q, avgErrorsPerFlow f' = Some q ∧ (q == 0)%Q)).
Proof.
  destruct demo_flow_run as (f' & Hrun & Hr). exists f'.
  split; [exact Hrun|]. split; [exact Hr|].
  exact (avgErrorsPerFlow_zero f' Hr).
Defined.

Lemma run_reads_prefix_witness :
  ∃ f' used, run demo_script demo_flow = Returns (f', []) ∧
             demo_script = used ++ [] ∧
             run (used ++ [Reply "y"%char]) demo_flow = Returns (f', [Reply "y"%char]).
Proof.
  destruct demo_flow_run as (f' & Hrun & _).
  destruct (run_reads_prefix demo_script [] demo_flow f' Hrun) as (used & Hσ & Hrest).
  exists f', used. split; [exact Hrun|]. split; [exact Hσ|]. exact (Hrest _).
Defined.

Lemma run_total_errors_witness :
  ∃ f' used, run demo_script demo_flow = Returns (f', []) ∧
             demo_script = used ++ [] ∧
             total_errors f' = total_errors demo_flow + raises used.
Proof.
  destruct demo_flow_run as (f' & Hrun & _).
  destruct (run_total_errors demo_script [] demo_flow f' Hrun) as (used & Hσ & Htot).
  exists f', used. split; [exact Hrun|]. split; [exact Hσ|]. exact Htot.
Defined.

Lemma run_min_events_witness :
  size demo_flow ≤ SIZE_MAX ∧
  ∃ f', run demo_script demo_flow = Returns (f', []) ∧
        (length ([] : list event) + 2 * length (steps demo_flow) ≤ length demo_script)%nat.
Proof.
  assert (Hsz : size demo_flow ≤ SIZE_MAX) by (vm_compute; discriminate).
  destruct demo_flow_run as (f' & Hrun & _).
  split; [exact Hsz|]. exists f'. split; [exact Hrun|].
  exact (run_min_events demo_script [] demo_flow f' Hsz Hrun).
Defined.

Lemma demo_flow_fresh q : entry demo_flow q = StepAnalytics_init.
Proof.
  unfold demo_flow. rewrite !entry_addStep. unfold entry. simpl.
  by rewrite lookup_empty.
Defined.

Lemma run_decided_witness :
  reachable demo_flow ∧ length [true; false] = length (steps demo_flow) ∧
  ∃ f', run (decided_script [true; false] ++ []) demo_flow = Returns (f', []) ∧
        completedCount (entry f' 1%N) = 1 ∧ skippedCount (entry f' 1%N) = 0 ∧
        completedCount (entry f' 2%N) = 0 ∧ skippedCount (entry f' 2%N) = 1.
Proof.
  split; [exact demo_flow_reachable|]. split; [reflexivity|].
  destruct (run_decided [true; false] [] demo_flow demo_flow_reachable eq_refl)
    as (f' & Hrun & _ & Hcount).
  - vm_compute. reflexivity.
  - intros q. rewrite demo_flow_fresh. vm_compute. reflexivity.
  - exists f'. split; [exact Hrun|].
    destruct (Hcount 1%N) as (_ & Hc1 & Hk1 & _).
    destruct (Hcount 2%N) as (_ & Hc2 & Hk2 & _).
    rewrite demo_flow_fresh in Hc1, Hk1, Hc2, Hk2.
    split; [exact Hc1|]. split; [exact Hk1|]. split; [exact Hc2 | exact Hk2].
Defined.

(** A flow whose steps were added in descending order of their addresses:
    the rows of its report come in ascending order. *)
Lemma printAnalytics_rows_witness :
  let f := addStep 1%N (addStep 2%N (Flow_new "demo" 0)) in
  reachable f ∧ steps f = [2%N; 1%N] ∧
  (in_key_order (analytics f)).*1 = [1%N; 2%N] ∧
  StronglySorted N.lt (in_key_order (analytics f)).*1.
Proof.
  intros f.
  assert (Hr : reachable f).
  { unfold f. apply reach_addStep; [apply reach_addStep; [apply reach_new|] |];
      unfold size, SIZE_MAX; simpl; lia. }
  split; [exact Hr|]. split; [reflexivity|]. split; [vm_compute; reflexivity|].
  exact (proj1 (printAnalytics_rows f Hr)).
Defined.

Lemma header_index_in_range_witness :
  size demo_flow ≤ SIZE_MAX ∧
  ∃ f1, at_header demo_script demo_flow f1 1 fails_twice ∧
        0 ≤ 1 ≤ size f1 ∧ size f1 = size demo_flow.
Proof.
  assert (Hsz : size demo_flow ≤ SIZE_MAX) by (vm_compute; discriminate).
  destruct demo_at_second_step as [f1 Hat].
  destruct (header_index_in_range demo_script fails_twice demo_flow f1 1 Hsz Hat)
    as (Hr & Hsize & _).
  split; [exact Hsz|]. exists f1. split; [exact Hat|]. split; [exact Hr | exact Hsize].
Defined.

Lemma deleteFlow_after_createFlow_witness :
  ("c" ∉ System.printFlows demo_registry) ∧ "b" ∈ System.printFlows demo_registry ∧
  System.deleteFlow "c" (System.createFlow "c" 3 demo_registry)
  = (Returns (), demo_registry) ∧
  "b" ∈ System.printFlows
          (System.deleteFlow "b" (System.createFlow "b" 3 demo_registry)).2.
Proof.
  assert (Hb : "b" ∈ System.printFlows demo_registry).
  { apply list_elem_of_further, list_elem_of_here. }
  assert (Hc : "c" ∉ System.printFlows demo_registry).
  { intros Hin. repeat (apply elem_of_cons in Hin as [Hin|Hin]; [discriminate Hin|]).
    by apply elem_of_nil in Hin. }
  split; [exact Hc|]. split; [exact Hb|]. split.
  - exact (proj1 (deleteFlow_after_createFlow "c" 3 demo_registry) Hc).
  - exact (proj2 (proj2 (deleteFlow_after_createFlow "b" 3 demo_registry) Hb)).
Defined.

Lemma deleteFlow_twice_witness :
  NoDup (System.printFlows unique_registry) ∧ "a" ∈ System.printFlows unique_registry ∧
  ∃ flows', System.deleteFlow "a" unique_registry = (Returns (), flows') ∧
            System.deleteFlow "a" flows' = (Throws (FlowNotFoundException "a"), flows').
Proof.
  assert (Hnd : NoDup (System.printFlows unique_registry)).
  { apply NoDup_cons. split.
    - intros Hin. apply list_elem_of_singleton in Hin. discriminate Hin.
    - apply NoDup_singleton. }
  assert (Hin : "a" ∈ System.printFlows unique_registry) by apply list_elem_of_here.
  split; [exact Hnd|]. split; [exact Hin|].
  destruct (deleteFlow_twice "a" unique_registry Hnd Hin)
    as (flows' & Hdel & _ & _ & _ & Hagain).
  exists flows'. split; [exact Hdel | exact Hagain].
Defined.

Lemma main_run_flow_spec_witness :
  ("c" ∉ System.printFlows demo_registry) ∧
  main_run_flow [Reply "y"%char] "c" demo_registry
  = Returns (demo_registry, [Reply "y"%char]) ∧
  ∃ flow', run [Reply "y"%char] (Flow_new "b" 1) = Returns (flow', [Reply "y"%char]) ∧
    main_run_flow [Reply "y"%char] "b" demo_registry
    = Returns ([Flow_new "a" 0] ++ flow' :: [Flow_new "b" 2], [Reply "y"%char]).
Proof.
  assert (Hc : "c" ∉ System.printFlows demo_registry).
  { intros Hin. repeat (apply elem_of_cons in Hin as [Hin|Hin]; [discriminate Hin|]).
    by apply elem_of_nil in Hin. }
  assert (Ha : "b" ∉ System.printFlows [Flow_new "a" 0]).
  { intros Hin. apply list_elem_of_singleton in Hin. discriminate Hin. }
  split; [exact Hc|]. split.
  - exact (proj1 (main_run_flow_spec [Reply "y"%char] "c" demo_registry) Hc).
  - eexists. split; [vm_compute; reflexivity|].
    refine (proj1 (proj2 (main_run_flow_spec [Reply "y"%char] "b" demo_registry)
                     [Flow_new "a" 0] (Flow_new "b" 1) [Flow_new "b" 2] _ _
                     eq_refl eq_refl Ha _)).
    vm_compute. reflexivity.
Defined.

Lemma created_flow_runs_at_once_witness :
  ("c" ∉ System.printFlows demo_registry) ∧
  main_run_flow [Reply "y"%char] "c" (System.createFlow "c" 3 demo_registry)
  = Returns (demo_registry ++ [mkFlow "c" [] 3 ∅ 1 1 0], [Reply "y"%char]).
Proof.
  assert (Hc : "c" ∉ System.printFlows demo_registry).
  { intros Hin. repeat (apply elem_of_cons in Hin as [Hin|Hin]; [discriminate Hin|]).
    by apply elem_of_nil in Hin. }
  split; [exact Hc|].
  exact (created_flow_runs_at_once [Reply "y"%char] "c" 3 demo_registry Hc).
Defined.

Lemma execute_ends_witness :
  let step := Display (TextInput (TextInputStep.mk "Enter some text:" "notes.txt")) in
  sized step ∧
  exec_result_of (execute demo_world step).2 = Some (Raises "TextInputStep").
Proof.
  intros step.
  assert (Hs : sized step) by (vm_compute; reflexivity).
  split; [exact Hs|].
  destruct (execute_ends demo_world step Hs) as [(r & Hr & _)|[Hu _]].
  - rewrite Hr. vm_compute in Hr. symmetry. exact Hr.
  - vm_compute in Hu. discriminate Hu.
Defined.

Lemma execute_never_fails_witness :
  let step := Display (Calculus Z int_numeric (CalculusStep.mk 3 [6; 0] "/")) in
  throws_nothing step = true ∧ sized step ∧ overflowing step = false ∧
  (execute demo_world step).2 = Returns ().
Proof.
  intros step.
  assert (Hs : sized step) by (vm_compute; discriminate).
  split; [reflexivity|]. split; [exact Hs|]. split; [reflexivity|].
  exact (execute_never_fails demo_world step eq_refl Hs eq_refl).
Defined.

Lemma getlines_unlines_witness :
  Forall (λ l, has_newline l = false) ["a,b"; "c,d"] ∧
  getlines (unlines ["a,b"; "c,d"]) EmptyString = ["a,b"; "c,d"].
Proof.
  assert (H : Forall (λ l, has_newline l = false) ["a,b"; "c,d"]).
  { repeat constructor. }
  split; [exact H|]. exact (proj1 (getlines_unlines ["a,b"; "c,d"] H)).
Defined.

Lemma TextInputStep_with_dot_witness :
  let self := TextInputStep.mk "Enter some text:" "notes.txt" in
  fits (TextInputStep.textInput self) ∧ has_dot (TextInputStep.textInput self) = true ∧
  TextInputStep.execute (only_file "notes.txt" "hello") self
  = ([Cout "Text Input (from file): hello"], Returns ()).
Proof.
  intros self.
  assert (Hf : fits (TextInputStep.textInput self)) by (vm_compute; reflexivity).
  split; [exact Hf|]. split; [reflexivity|].
  rewrite (TextInputStep_with_dot (only_file "notes.txt" "hello") self Hf eq_refl).
  vm_compute. reflexivity.
Defined.

Lemma CSVInputStep_with_dot_witness :
  let self := CSVInputStep.mk "Enter CSV file path:" "table.txt" in
  fits (CSVInputStep.csvFilePath self) ∧ has_dot (CSVInputStep.csvFilePath self) = true ∧
  CSVInputStep.execute (only_file "table.txt" "a,b") self
  = ([Cerr "Error: Invalid file type for CSVInputStep"],
     Throws (FlowExecutionException "CSVInputStep")).
Proof.
  intros self.
  assert (Hf : fits (CSVInputStep.csvFilePath self)) by (vm_compute; reflexivity).
  split; [exact Hf|]. split; [reflexivity|].
  rewrite (CSVInputStep_with_dot (only_file "table.txt" "a,b") self Hf eq_refl).
  vm_compute. reflexivity.
Defined.

Lemma execute_unsupported_operation_witness :
  let self := CalculusStep.mk 3 [2; 3; 4] "%" in
  CalculusStep.binop (T := Z) (CalculusStep.operation self) = None ∧
  CalculusStep.execute self
  = ([Cerr "Error: Unsupported operation in CalculusStep."], Returns ()).
Proof.
  intros self. split; [reflexivity|].
  destruct (execute_unsupported_operation self eq_refl) as (first & _ & Hex).
  - vm_compute. discriminate.
  - simpl. lia.
  - exact Hex.
Defined.

Lemma execute_min_max_witness :
  let self := CalculusStep.mk 5 [4; 2; 7] "min" in
  1 ≤ CalculusStep.steps self ∧ (2 ≤ length (CalculusStep.inputValues self))%nat ∧
  ∃ result, CalculusStep.execute self
            = ([Cout ("Calculus Result: " +:+ show result)], Returns ()) ∧
            result ∈ [4; 2; 7] ∧ result ≤ 7.
Proof.
  intros self.
  assert (H1 : 1 ≤ CalculusStep.steps self) by (vm_compute; discriminate).
  assert (H2 : (2 ≤ length (CalculusStep.inputValues self))%nat) by (simpl; lia).
  assert (H3 : Z.of_nat (length (CalculusStep.inputValues self)) ≤ SIZE_MAX)
    by (vm_compute; discriminate).
  destruct (execute_min_max self H1 H2 H3 (or_introl eq_refl))
    as (first & result & Hfirst & Hex & Hmem & Hle).
  inversion Hfirst; subst first.
  split; [exact H1|]. split; [exact H2|]. exists result.
  split; [exact Hex|]. split; [exact Hmem|].
  apply (Hle 7). do 2 apply list_elem_of_further. apply list_elem_of_here.
Defined.
